(** * Session controller of the chat client (src/components/ui/Chat.tsx)

    A shallow embedding of the `Home` component: the message sequence, the
    socket message handler (`onmessage`), the connection lifecycle
    (`onopen`, `onclose`, the reconnect timeout) and `sendMessage`.

    React state (`useState`) and refs (`useRef`) become fields of one state
    record that every handler transforms.  `setMessages(f)` with an updater
    [f] is the assignment [messages := f messages]; two calls in a row
    compose.  Console logging is not modelled. *)

From Stdlib Require Import String Ascii DecimalString.
From stdpp Require Import base tactics option list.

Local Open Scope string_scope.

(** ** Data model *)

(** `source?: 'websocket' | 'voice' | 'user'` *)
Inductive Source := websocket | voice | user.

Global Instance Source_eq_dec : EqDecision Source.
Proof. solve_decision. Defined.

(** `type Message`.  An optional field that is absent (or `undefined`) is
    [None]. *)
Record Message := mkMessage {
  sender : string;
  text : string;
  audio : option string;
  loading : option bool;
  avatarUrl : option string;
  source : option Source;
}.

(** ** JavaScript primitives used by the handlers *)

(** Truthiness of an optional boolean (`m.loading`). *)
Definition truthy_bool (b : option bool) : bool :=
  match b with
  | Some true => true
  | _ => false
  end.

(** Truthiness of an optional string: `undefined` and the empty string are
    falsy. *)
Definition truthy_str (s : option string) : bool :=
  match s with
  | Some (String _ _) => true
  | _ => false
  end.

(** `s || d` on an optional string [s] and a string [d]. *)
Definition or_else (s : option string) (d : string) : string :=
  match s with
  | Some (String a r) => String a r
  | _ => d
  end.

(** `a === b` on strings. *)
Definition streq (a b : string) : bool := String.eqb a b.

(** `m.source === 'websocket'` *)
Definition source_is_websocket (m : Message) : bool :=
  bool_decide (source m = Some websocket).

(** `updated[updated.length - 1]`: [None] is `undefined` (empty array). *)
Definition lastMessage (updated : list Message) : option Message :=
  updated !! (length updated - 1).

(** `lastMessage?.loading && lastMessage?.source === 'websocket'` *)
Definition last_is_loading_websocket (updated : list Message) : bool :=
  match lastMessage updated with
  | Some m => truthy_bool (loading m) && source_is_websocket m
  | None => false
  end.

(** `updated[updated.length - 1] = m` in a branch where the array is not
    empty. *)
Definition set_last (updated : list Message) (m : Message) : list Message :=
  <[length updated - 1 := m]> updated.

(** `updated.push(m)` *)
Definition push (updated : list Message) (m : Message) : list Message :=
  updated ++ [m].

(** ** Incoming envelopes *)

(** The object `JSON.parse` returns, seen through the properties the
    handler reads.  `error`, `event`, `answer` and `audio_url` are tested
    before use, so they are optional; `text` and `message` are used as
    strings without a test, as the wire protocol delivers them. *)
Record ws_data := mkData {
  d_error : option string;
  d_event : option string;
  d_text : string;
  d_answer : option string;
  d_audio_url : option string;
  d_message : string;
}.

(** Result of `JSON.parse` when it does not throw: `null`, or a value whose
    properties can be read (a primitive or an array reads as an object with
    none of the properties set). *)
Inductive json := JNull | JData (data : ws_data).

(** `data.event === tag` *)
Definition event_is (data : ws_data) (tag : string) : bool :=
  match d_event data with
  | Some e => streq e tag
  | None => false
  end.

Definition fallback_answer : string := "I couldn't generate an answer.".

Section Handlers.

(** `process.env.NEXT_PUBLIC_API_BASE` *)
Variable NEXT_PUBLIC_API_BASE : option string.

Definition API_BASE : string := or_else NEXT_PUBLIC_API_BASE "http://127.0.0.1:8000".

(** The `audioUrl` constant of the `done` and `audio_ready` branches. *)
Definition audioUrl (data : ws_data) : option string :=
  match d_audio_url data with
  | Some u =>
      if String.prefix "http" u then Some u
      else if truthy_str (Some u) then Some (API_BASE ++ u)
      else None
  | None => None
  end.

(** *** The updaters passed to `setMessages` by `onmessage` *)

(** `if (data.error)` branch, lines 63-78. *)
Definition error_update (err : string) (prev : list Message) : list Message :=
  let updated := prev in
  if (0 <? length updated)%nat && last_is_loading_websocket updated then
    set_last updated
      {| sender := "Bot"; text := "Error: " ++ err; audio := None;
         loading := Some false; avatarUrl := None; source := Some websocket |}
  else updated.

(** `partial_text` branch, lines 89-111. *)
Definition partial_text_update (fragment : string) (prev : list Message)
  : list Message :=
  let updated := prev in
  match lastMessage updated with
  | Some m =>
      if truthy_bool (loading m) && source_is_websocket m then
        set_last updated
          {| sender := sender m; text := text m ++ fragment; audio := audio m;
             loading := Some true; avatarUrl := avatarUrl m;
             source := source m |}
      else
        push updated
          {| sender := "Bot"; text := fragment; audio := None;
             loading := Some true; avatarUrl := None;
             source := Some websocket |}
  | None =>
      push updated
        {| sender := "Bot"; text := fragment; audio := None;
           loading := Some true; avatarUrl := None; source := Some websocket |}
  end.

(** The object literal both arms of the `done` branch build. *)
Definition done_message (data : ws_data) : Message :=
  {| sender := "Bot"; text := or_else (d_answer data) fallback_answer;
     audio := audioUrl data; loading := Some false; avatarUrl := None;
     source := Some websocket |}.

(** `done` branch, lines 123-148. *)
Definition done_update (data : ws_data) (prev : list Message) : list Message :=
  let updated := prev in
  if last_is_loading_websocket updated then set_last updated (done_message data)
  else push updated (done_message data).

(** The test of the `audio_ready` scan, lines 164-168. *)
Definition finalized_bot (m : Message) : bool :=
  streq (sender m) "Bot" && negb (truthy_bool (loading m))
  && source_is_websocket m.

(** The loop `for (let i = updated.length - 1; i >= 0; i--)` with [n] the
    number of indices still to visit, so that the index visited is [n - 1];
    the `break` is the return of the updated array. *)
Fixpoint audio_scan (n : nat) (url : option string) (updated : list Message)
  : list Message :=
  match n with
  | O => updated
  | S i =>
      match updated !! i with
      | Some m =>
          if finalized_bot m then
            <[i := {| sender := sender m; text := text m; audio := url;
                      loading := loading m; avatarUrl := avatarUrl m;
                      source := source m |}]> updated
          else audio_scan i url updated
      | None => updated
      end
  end.

(** `audio_ready` branch, lines 160-175. *)
Definition audio_ready_update (data : ws_data) (prev : list Message)
  : list Message :=
  let updated := prev in
  audio_scan (length updated) (audioUrl data) updated.

(** `audio_error` branch, lines 181-197. *)
Definition audio_error_update (msg : string) (prev : list Message)
  : list Message :=
  let updated := prev in
  if (0 <? length updated)%nat && last_is_loading_websocket updated then
    set_last updated
      {| sender := "Bot"; text := "Error generating audio: " ++ msg;
         audio := None; loading := Some false; avatarUrl := None;
         source := Some websocket |}
  else updated.

(** The chain of `if`s of `onmessage` after a successful parse, as the
    updater it applies to the message sequence (the identity where the
    handler returns without calling `setMessages`). *)
Definition handle_data (data : ws_data) (prev : list Message) : list Message :=
  match d_error data with
  | Some (String a r) => error_update (String a r) prev
  | _ =>
      if event_is data "processing" then prev
      else if event_is data "partial_text" then
        partial_text_update (d_text data) prev
      else if event_is data "done" then done_update data prev
      else if event_is data "audio_ready" then audio_ready_update data prev
      else if event_is data "audio_error" then
        audio_error_update (d_message data) prev
      else prev
  end.

End Handlers.

(** ** Component state and connection lifecycle *)

(** `WebSocket.readyState` *)
Inductive ReadyState := CONNECTING | OPEN | CLOSING | CLOSED.

(** The object handed to `JSON.stringify` and `ws.send` by `sendMessage`. *)
Record request := mkRequest {
  session_id : string;
  question : string;
}.

(** State of the `Home` component and of what it owns in the browser:
    - [messages], [sessionId]: the two `useState` cells;
    - [sockets]: the ready state of every `WebSocket` constructed so far, in
      construction order; [wsRef] is `wsRef.current`, an index into it;
    - [reconnectAttempts]: `reconnectAttempts.current`;
    - [timers]: the number of `setTimeout` callbacks scheduled and not yet
      run;
    - [sent]: the frames passed to `send`, with the socket they went to. *)
Record State := mkState {
  messages : list Message;
  sessionId : option string;
  sockets : list ReadyState;
  wsRef : option nat;
  reconnectAttempts : nat;
  timers : nat;
  sent : list (nat * request);
}.

Definition maxReconnectAttempts : nat := 5.

Definition terminal_text : string :=
  "WebSocket connection lost. Please refresh the page.".

Definition terminal_message : Message :=
  {| sender := "Bot"; text := terminal_text; audio := None;
     loading := Some false; avatarUrl := None; source := Some websocket |}.

Definition connection_lost_message : Message :=
  {| sender := "Bot"; text := "Connection lost. Please try again.";
     audio := None; loading := Some false; avatarUrl := None;
     source := Some websocket |}.

(** `setMessages(f)` *)
Definition setMessages (f : list Message -> list Message) (st : State) : State :=
  {| messages := f (messages st); sessionId := sessionId st;
     sockets := sockets st; wsRef := wsRef st;
     reconnectAttempts := reconnectAttempts st; timers := timers st;
     sent := sent st |}.

(** The browser moves socket [i] to ready state [r]. *)
Definition set_ready (i : nat) (r : ReadyState) (st : State) : State :=
  {| messages := messages st; sessionId := sessionId st;
     sockets := <[i := r]> (sockets st); wsRef := wsRef st;
     reconnectAttempts := reconnectAttempts st; timers := timers st;
     sent := sent st |}.

(** `connectWebSocket`, line 43: a new socket, connecting, becomes
    `wsRef.current`. *)
Definition connectWebSocket (st : State) : State :=
  {| messages := messages st; sessionId := sessionId st;
     sockets := sockets st ++ [CONNECTING];
     wsRef := Some (length (sockets st));
     reconnectAttempts := reconnectAttempts st; timers := timers st;
     sent := sent st |}.

(** `onopen`, lines 45-48. *)
Definition onopen (st : State) : State :=
  {| messages := messages st; sessionId := sessionId st;
     sockets := sockets st; wsRef := wsRef st;
     reconnectAttempts := 0; timers := timers st; sent := sent st |}.

(** `onclose`, lines 204-226: schedule the reconnect timeout, or append the
    terminal message. *)
Definition onclose (st : State) : State :=
  if (reconnectAttempts st <? maxReconnectAttempts)%nat then
    {| messages := messages st; sessionId := sessionId st;
       sockets := sockets st; wsRef := wsRef st;
       reconnectAttempts := reconnectAttempts st; timers := S (timers st);
       sent := sent st |}
  else setMessages (fun prev => (prev ++ [terminal_message])%list) st.

(** The callback given to `setTimeout`, lines 210-213. *)
Definition reconnect_timeout (st : State) : State :=
  connectWebSocket
    {| messages := messages st; sessionId := sessionId st;
       sockets := sockets st; wsRef := wsRef st;
       reconnectAttempts := reconnectAttempts st + 1; timers := timers st;
       sent := sent st |}.

(** `onerror`, lines 228-230: logs only. *)
Definition onerror (st : State) : State := st.

(** `wsRef.current.readyState`, when `wsRef.current` is set. *)
Definition readyState (st : State) : option ReadyState :=
  match wsRef st with
  | Some i => sockets st !! i
  | None => None
  end.

(** `wsRef.current && wsRef.current.readyState === WebSocket.OPEN` *)
Definition socket_open (st : State) : bool :=
  match readyState st with
  | Some OPEN => true
  | _ => false
  end.

(** `sendMessage`, lines 290-334. *)
Definition sendMessage (text0 : string) (st : State) : State :=
  match sessionId st, wsRef st with
  | Some (String a r), Some i =>
      if socket_open st then
        let st1 :=
          setMessages (fun prev =>
            (prev ++ [ {| sender := "You"; text := text0; audio := None;
                          loading := None; avatarUrl := None;
                          source := Some user |} ])%list) st in
        let st2 :=
          setMessages (fun prev =>
            (prev ++ [ {| sender := "Bot"; text := EmptyString; audio := None;
                          loading := Some true; avatarUrl := None;
                          source := Some websocket |} ])%list) st1 in
        {| messages := messages st2; sessionId := sessionId st2;
           sockets := sockets st2; wsRef := wsRef st2;
           reconnectAttempts := reconnectAttempts st2; timers := timers st2;
           sent := (sent st2 ++
                    [(i, {| session_id := String a r; question := text0 |})])%list |}
      else setMessages (fun prev => (prev ++ [connection_lost_message])%list) st
  | _, _ => setMessages (fun prev => (prev ++ [connection_lost_message])%list) st
  end.

Section Controller.

Variable NEXT_PUBLIC_API_BASE : option string.

(** `JSON.parse` of the browser: [None] when it throws. *)
Variable JSON_parse : string -> option json.

(** `onmessage`, lines 50-202.  A parse failure returns at once; on `null`
    the read of `data.error` throws and the handler ends there; otherwise
    the branch taken hands its updater to `setMessages`. *)
Definition onmessage (payload : string) (st : State) : State :=
  match JSON_parse payload with
  | None => st
  | Some JNull => st
  | Some (JData data) => setMessages (handle_data NEXT_PUBLIC_API_BASE data) st
  end.

(** *** What the browser and the user can do to the component *)

Inductive event :=
  | EvOpen (i : nat)
  | EvMessage (i : nat) (payload : string)
  | EvClosing (i : nat)
  | EvError (i : nat)
  | EvClose (i : nat)
  | EvTimeout
  | EvSend (text0 : string).

(** One event, [None] when the browser cannot deliver it in this state: a
    socket opens once, from CONNECTING; delivers messages only while OPEN;
    fires `close` once, on reaching CLOSED; a timeout runs only if
    scheduled. *)
Definition step (ev : event) (st : State) : option State :=
  match ev with
  | EvOpen i =>
      match sockets st !! i with
      | Some CONNECTING => Some (onopen (set_ready i OPEN st))
      | _ => None
      end
  | EvMessage i payload =>
      match sockets st !! i with
      | Some OPEN => Some (onmessage payload st)
      | _ => None
      end
  | EvClosing i =>
      match sockets st !! i with
      | Some CONNECTING | Some OPEN => Some (set_ready i CLOSING st)
      | _ => None
      end
  | EvError i =>
      match sockets st !! i with
      | Some _ => Some (onerror st)
      | None => None
      end
  | EvClose i =>
      match sockets st !! i with
      | Some CONNECTING | Some OPEN | Some CLOSING =>
          Some (onclose (set_ready i CLOSED st))
      | _ => None
      end
  | EvTimeout =>
      match timers st with
      | S n =>
          Some (reconnect_timeout
                  {| messages := messages st; sessionId := sessionId st;
                     sockets := sockets st; wsRef := wsRef st;
                     reconnectAttempts := reconnectAttempts st; timers := n;
                     sent := sent st |})
      | O => None
      end
  | EvSend text0 => Some (sendMessage text0 st)
  end.

Fixpoint run (evs : list event) (st : State) : option State :=
  match evs with
  | [] => Some st
  | ev :: evs' =>
      match step ev st with
      | Some st' => run evs' st'
      | None => None
      end
  end.

End Controller.

(** `pastMessages` of `initSession`, lines 255-269: one `You` message per
    non-empty question and one `Bot` message per non-empty answer. *)
Definition seed_entry (h : string * string) : list Message :=
  (if truthy_str (Some (fst h)) then
     [ {| sender := "You"; text := fst h; audio := None; loading := None;
          avatarUrl := None; source := Some user |} ]
   else []) ++
  (if truthy_str (Some (snd h)) then
     [ {| sender := "Bot"; text := snd h; audio := None; loading := None;
          avatarUrl := None; source := Some websocket |} ]
   else []).

Definition seed_history (history : list (string * string)) : list Message :=
  flat_map seed_entry history.

(** The state `initSession` leaves when it completes: the session
    identifier stored, the history seeded (an absent history seeds
    nothing), the first socket connecting. *)
Definition init_state (session : option string)
    (history : list (string * string)) : State :=
  connectWebSocket
    {| messages := seed_history history; sessionId := session;
       sockets := []; wsRef := None; reconnectAttempts := 0; timers := 0;
       sent := [] |}.

(** ** Vocabulary of the properties *)

Local Open Scope list_scope.

(** The envelope reaches the branch of `onmessage` for discriminant [tag]:
    its `error` is falsy and its `event` is [tag]. *)
Definition is_event (tag : string) (data : ws_data) : bool :=
  negb (truthy_str (d_error data)) && event_is data tag.

(** The envelope is taken by the first branch: `data.error` is truthy. *)
Definition is_error (data : ws_data) : bool := truthy_str (d_error data).

(** A socket-origin message in the loading state. *)
Definition loading_websocket (m : Message) : bool :=
  truthy_bool (loading m) && source_is_websocket m.

(** Text of the placeholder a stream of fragments extends: the text of the
    trailing loading socket-origin message, or the empty string when the
    first fragment creates the message. *)
Definition pending_text (msgs : list Message) : string :=
  match lastMessage msgs with
  | Some m => if loading_websocket m then text m else EmptyString
  | None => EmptyString
  end.

(** `fragments.join('')` *)
Definition concat_fragments (fragments : list string) : string :=
  fold_right String.append EmptyString fragments.

(** The trailing loading message after the fragment [s] has been added to
    it: the spread of line 96 with the two overwritten properties. *)
Definition extended (m : Message) (s : string) : Message :=
  {| sender := sender m; text := (text m ++ s)%string; audio := audio m;
     loading := Some true; avatarUrl := avatarUrl m; source := source m |}.

(** The fragments of a run of `partial_text` envelopes, handled in order. *)
Definition stream (fragments : list string) (msgs : list Message)
  : list Message :=
  foldl (fun acc fragment => partial_text_update fragment acc) msgs fragments.

(** Envelopes of the wire protocol, for concrete runs. *)
Definition partial_text_event (fragment : string) : ws_data :=
  {| d_error := None; d_event := Some "partial_text"; d_text := fragment;
     d_answer := None; d_audio_url := None; d_message := EmptyString |}.

Definition done_event (answer audio_url : option string) : ws_data :=
  {| d_error := None; d_event := Some "done"; d_text := EmptyString;
     d_answer := answer; d_audio_url := audio_url;
     d_message := EmptyString |}.

Definition audio_ready_event (audio_url : option string) : ws_data :=
  {| d_error := None; d_event := Some "audio_ready"; d_text := EmptyString;
     d_answer := None; d_audio_url := audio_url; d_message := EmptyString |}.

Definition audio_error_event (msg : string) : ws_data :=
  {| d_error := None; d_event := Some "audio_error"; d_text := EmptyString;
     d_answer := None; d_audio_url := None; d_message := msg |}.

Definition error_event (err : string) : ws_data :=
  {| d_error := Some err; d_event := None; d_text := EmptyString;
     d_answer := None; d_audio_url := None; d_message := EmptyString |}.

(** The two messages `sendMessage` appends. *)
Definition user_message (text0 : string) : Message :=
  {| sender := "You"; text := text0; audio := None; loading := None;
     avatarUrl := None; source := Some user |}.

Definition placeholder : Message :=
  {| sender := "Bot"; text := EmptyString; audio := None;
     loading := Some true; avatarUrl := None; source := Some websocket |}.

(** `{ ...m, audio: url }`, the object of line 169. *)
Definition with_audio (m : Message) (url : option string) : Message :=
  {| sender := sender m; text := text m; audio := url; loading := loading m;
     avatarUrl := avatarUrl m; source := source m |}.

(** The text of the message an `error` or `audio_error` envelope leaves in
    place of the placeholder (lines 72 and 190). *)
Definition error_text (data : ws_data) : string :=
  match d_error data with
  | Some (String a r) => ("Error: " ++ String a r)%string
  | _ => ("Error generating audio: " ++ d_message data)%string
  end.

(** A stand-in for `JSON.parse` in concrete runs: it knows the payloads
    `null` and `{}` and throws on every other payload. *)
Definition sample_parse (payload : string) : option json :=
  if streq payload "null" then Some JNull
  else if streq payload "{}" then
    Some (JData {| d_error := None; d_event := None; d_text := EmptyString;
                   d_answer := None; d_audio_url := None;
                   d_message := EmptyString |})
  else None.

(** A socket that can still fire events. *)
Definition is_live (r : ReadyState) : bool :=
  match r with
  | CLOSED => false
  | _ => true
  end.

Fixpoint live_count (l : list ReadyState) : nat :=
  match l with
  | [] => 0
  | r :: l' => (if is_live r then 1 else 0) + live_count l'
  end.

(** Number of messages carrying the terminal text of `onclose`. *)
Fixpoint count_terminal (msgs : list Message) : nat :=
  match msgs with
  | [] => 0
  | m :: msgs' =>
      (if streq (text m) terminal_text then 1 else 0) + count_terminal msgs'
  end.

(** At most one thing can still bring the connection back: a socket that
    is not closed yet, or a scheduled reconnect timeout. *)
Definition single_connection (st : State) : Prop :=
  timers st + live_count (sockets st) <= 1.

(** Nothing can bring the connection back. *)
Definition connection_dead (st : State) : Prop :=
  timers st = 0 /\ live_count (sockets st) = 0.

(** The counter stays within the ceiling, and a scheduled timeout still
    has an attempt to spend. *)
Definition attempts_bounded (st : State) : Prop :=
  reconnectAttempts st <= maxReconnectAttempts /\
  (0 < timers st -> reconnectAttempts st < maxReconnectAttempts).

(** Five failed reconnects in a row: every socket closes before it opens
    and every timeout runs. *)
Definition five_failed_reconnects : list event :=
  [EvClose 0; EvTimeout; EvClose 1; EvTimeout; EvClose 2; EvTimeout;
   EvClose 3; EvTimeout; EvClose 4; EvTimeout].

(** The state after [five_failed_reconnects] from a fresh session, and
    the state after the sixth socket closes as well. *)
Definition exhausted_state : State :=
  {| messages := []; sessionId := Some "s1";
     sockets := [CLOSED; CLOSED; CLOSED; CLOSED; CLOSED; CONNECTING];
     wsRef := Some 5; reconnectAttempts := 5; timers := 0; sent := [] |}.

Definition given_up_state : State :=
  {| messages := [terminal_message]; sessionId := Some "s1";
     sockets := [CLOSED; CLOSED; CLOSED; CLOSED; CLOSED; CLOSED];
     wsRef := Some 5; reconnectAttempts := 5; timers := 0; sent := [] |}.

(** Every loading socket-origin message is the last element: there is at
    most one and it trails. *)
Definition loading_only_last (msgs : list Message) : Prop :=
  forall i m, msgs !! i = Some m -> loading_websocket m = true ->
    S i = length msgs.

(** No socket-origin message is loading. *)
Definition settled (msgs : list Message) : Prop :=
  Forall (fun m => loading_websocket m = false) msgs.

(** The three ways an operation changes the message sequence. *)
Definition appended (prev next : list Message) : Prop :=
  exists added, next = prev ++ added.

Definition replaced_trailing_loading (prev next : list Message) : Prop :=
  exists pre m m',
    prev = pre ++ [m] /\ loading_websocket m = true /\ next = pre ++ [m'].

Definition audio_attached (prev next : list Message) : Prop :=
  exists pre m post url,
    prev = pre ++ m :: post /\ finalized_bot m = true /\
    next = pre ++ with_audio m url :: post.

(** The operations that append without looking at the trailing message:
    `sendMessage` and the `close` handler. *)
Definition appends_blindly (ev : event) : bool :=
  match ev with
  | EvSend _ | EvClose _ => true
  | _ => false
  end.

(** A state whose first socket has opened, and a finalized answer, for
    concrete runs. *)
Definition opened_state : State :=
  onopen (set_ready 0 OPEN (init_state (Some "s1") [])).

Definition answered : Message :=
  {| sender := "Bot"; text := "Hi there"; audio := None;
     loading := Some false; avatarUrl := None; source := Some websocket |}.

(** * Session bootstrap (`initSession`, Chat.tsx lines 235-287) *)

(** The value of `data.session_id`, hence of the local `session`: a string,
    `null`, or `undefined` when the reply has no such property. *)
Inductive session_value :=
  | SessionUndefined
  | SessionNull
  | SessionString (s : string).

(** `String(session)`, the coercion `localStorage.setItem` and the template
    literal of line 252 apply. *)
Definition session_text (v : session_value) : string :=
  match v with
  | SessionUndefined => "undefined"
  | SessionNull => "null"
  | SessionString s => s
  end.

(** The value as the `sessionId` cell keeps it ([None] for `null` and
    `undefined`, which the test of line 291 does not tell apart). *)
Definition session_cell (v : session_value) : option string :=
  match v with
  | SessionString s => Some s
  | _ => None
  end.

(** The component together with what `initSession` touches outside it:
    the `loadingSession` cell, the `chat_session` entry of `localStorage`
    and the URLs handed to `fetch`, in order. *)
Record Page := mkPage {
  home : State;
  loadingSession : bool;
  chat_session : option string;
  fetched : list string;
}.

(** The cells as `useState` and `useRef` initialise them. *)
Definition fresh_home : State :=
  {| messages := []; sessionId := None; sockets := []; wsRef := None;
     reconnectAttempts := 0; timers := 0; sent := [] |}.

Definition mount (storage : option string) : Page :=
  {| home := fresh_home; loadingSession := true; chat_session := storage;
     fetched := [] |}.

(** `setSessionId(v)` *)
Definition setSessionId (v : option string) (st : State) : State :=
  {| messages := messages st; sessionId := v; sockets := sockets st;
     wsRef := wsRef st; reconnectAttempts := reconnectAttempts st;
     timers := timers st; sent := sent st |}.

Section Bootstrap.

Variable NEXT_PUBLIC_API_BASE : option string.

(** `initSession`.  [start_reply] is what `/start-session` answers,
    [history_reply] what `/history/{id}` answers; [None] stands for a
    request or a `res.json()` that throws, which sends control to `catch`.
    For the history, [Some None] is a reply whose `history` is missing. *)
Definition initSession (start_reply : option session_value)
    (history_reply : option (option (list (string * string))))
    (pg : Page) : Page :=
  let finish (h : State) (storage : option string) (urls : list string) :=
    {| home := h; loadingSession := false; chat_session := storage;
       fetched := urls |} in
  let load_history (session : session_value) (storage : option string)
      (urls : list string) :=
    let h1 := setSessionId (session_cell session) (home pg) in
    let urls' :=
      urls ++ [(API_BASE NEXT_PUBLIC_API_BASE ++ "/history/"
                ++ session_text session)%string] in
    match history_reply with
    | None => finish h1 storage urls'
    | Some None => finish (connectWebSocket h1) storage urls'
    | Some (Some history) =>
        finish
          (connectWebSocket (setMessages (fun _ => seed_history history) h1))
          storage urls'
    end in
  match chat_session pg with
  | Some (String a r) =>
      load_history (SessionString (String a r)) (chat_session pg) (fetched pg)
  | _ =>
      let urls :=
        fetched pg ++ [(API_BASE NEXT_PUBLIC_API_BASE ++ "/start-session")%string] in
      match start_reply with
      | None => finish (home pg) (chat_session pg) urls
      | Some v =>
          load_history v
            (match v with
             | SessionNull => chat_session pg
             | _ => Some (session_text v)
             end)
            urls
      end
  end.

End Bootstrap.

(** * Conversation view (`ChatBox`) *)

(** An `Audio` object: its source and whether it is playing (not paused). *)
Record AudioElement := mkAudio {
  src : string;
  playing : bool;
}.

(** Calls into the speech-recognition library. *)
Inductive speech_call := StopListening | ResetTranscript.

(** The cells and refs of `ChatBox` that its handlers read or write, with
    the `Audio` objects constructed so far ([currentAudio] is an index into
    them) and the calls made to the speech-recognition library.  A handler
    runs with the cells of the latest render, and its writes are in place
    before the next handler runs. *)
Record ChatBox := mkChatBox {
  livekitToken : string;
  voiceMode : bool;
  connectionError : option string;
  input : string;
  audios : list AudioElement;
  currentAudio : option nat;
  isPlaying : option string;
  lastPlayedAudioRef : option string;
  speech : list speech_call;
}.

Definition fresh_chatbox : ChatBox :=
  {| livekitToken := EmptyString; voiceMode := false;
     connectionError := None; input := EmptyString; audios := [];
     currentAudio := None; isPlaying := None; lastPlayedAudioRef := None;
     speech := [] |}.

(** `botIsTyping`, lines 51-55. *)
Definition botIsTyping (msgs : list Message) : bool :=
  match lastMessage msgs with
  | Some m =>
      (0 <? length msgs)%nat && truthy_bool (loading m)
      && negb (bool_decide (source m = Some voice))
  | None => false
  end.

(** `filteredMessages`, line 193. *)
Definition filteredMessages (voice_mode : bool) (msgs : list Message)
  : list Message :=
  if voice_mode then msgs
  else filter (fun msg => source msg <> Some voice) msgs.

(** `audio.pause()` on element [a]. *)
Definition pause (a : nat) (l : list AudioElement) : list AudioElement :=
  alter (fun e => {| src := src e; playing := false |}) a l.

(** The three writes a handler makes to the player: the elements, then
    `setCurrentAudio` and `setIsPlaying`. *)
Definition set_player (l : list AudioElement) (cur : option nat)
    (now : option string) (cb : ChatBox) : ChatBox :=
  {| livekitToken := livekitToken cb; voiceMode := voiceMode cb;
     connectionError := connectionError cb; input := input cb;
     audios := l; currentAudio := cur; isPlaying := now;
     lastPlayedAudioRef := lastPlayedAudioRef cb; speech := speech cb |}.

(** Lines 80-83: a new `Audio(url)` becomes current and `play()` is called
    on it; [play_ok] tells whether the browser starts playback (when it
    refuses, the rejection is only logged). *)
Definition start_audio (url : string) (play_ok : bool) (cb : ChatBox)
  : ChatBox :=
  set_player (audios cb ++ [ {| src := url; playing := play_ok |} ])
    (Some (length (audios cb))) (Some url) cb.

(** `isPlaying === url` *)
Definition is_playing_url (cb : ChatBox) (url : string) : bool :=
  match isPlaying cb with
  | Some u => streq u url
  | None => false
  end.

(** `toggleAudio`, lines 72-90. *)
Definition toggleAudio (url : string) (play_ok : bool) (cb : ChatBox)
  : ChatBox :=
  match currentAudio cb with
  | Some a =>
      let cb1 := set_player (pause a (audios cb)) None None cb in
      if is_playing_url cb url then cb1 else start_audio url play_ok cb1
  | None => start_audio url play_ok cb
  end.

(** `audio.onended`, lines 84-87, when element [a] reaches its end. *)
Definition onended (a : nat) (cb : ChatBox) : ChatBox :=
  set_player (pause a (audios cb)) None None cb.

(** What the `POST /livekit/token` exchange can come to. *)
Inductive token_reply :=
  | TokenThrows (message : string)
  | TokenHttpError (status : nat) (errorText : string)
  | TokenBody (token : option string).

(** `${res.status}`: the status code in decimal. *)
Definition status_text (status : nat) : string :=
  NilZero.string_of_uint (Nat.to_uint status).

(** `fetchLivekitToken`, lines 102-132. *)
Definition fetchLivekitToken (reply : token_reply) (cb : ChatBox) : ChatBox :=
  let fail (message : string) :=
    {| livekitToken := livekitToken cb; voiceMode := voiceMode cb;
       connectionError :=
         Some ("Failed to connect to voice assistant: " ++ message)%string;
       input := input cb; audios := audios cb;
       currentAudio := currentAudio cb; isPlaying := isPlaying cb;
       lastPlayedAudioRef := lastPlayedAudioRef cb; speech := speech cb |} in
  match reply with
  | TokenThrows message => fail message
  | TokenHttpError status errorText =>
      fail ("HTTP error! status: " ++ status_text status ++ ", message: "
            ++ errorText)%string
  | TokenBody (Some (String a r)) =>
      {| livekitToken := String a r; voiceMode := true;
         connectionError := connectionError cb; input := input cb;
         audios := audios cb; currentAudio := currentAudio cb;
         isPlaying := isPlaying cb;
         lastPlayedAudioRef := lastPlayedAudioRef cb; speech := speech cb |}
  | TokenBody _ =>
      {| livekitToken := livekitToken cb; voiceMode := voiceMode cb;
         connectionError :=
           Some "Failed to fetch LiveKit token: No token in response.";
         input := input cb; audios := audios cb;
         currentAudio := currentAudio cb; isPlaying := isPlaying cb;
         lastPlayedAudioRef := lastPlayedAudioRef cb; speech := speech cb |}
  end.

(** `toggleVoiceMode`, lines 144-157. *)
Definition toggleVoiceMode (reply : token_reply) (cb : ChatBox) : ChatBox :=
  if voiceMode cb then
    let cb1 :=
      match currentAudio cb with
      | Some a => set_player (pause a (audios cb)) None None cb
      | None => cb
      end in
    {| livekitToken := EmptyString; voiceMode := false;
       connectionError := connectionError cb1; input := input cb1;
       audios := audios cb1; currentAudio := currentAudio cb1;
       isPlaying := isPlaying cb1;
       lastPlayedAudioRef := lastPlayedAudioRef cb1;
       speech := speech cb1 ++ [StopListening] |}
  else fetchLivekitToken reply cb.

(** The audio part of the effect of lines 162-176, run with the message
    sequence [msgs]. *)
Definition autoplay_effect (msgs : list Message) (play_ok : bool)
    (cb : ChatBox) : ChatBox :=
  if voiceMode cb then cb
  else
    match lastMessage msgs with
    | Some lastMsg =>
        match audio lastMsg with
        | Some (String a r) =>
            if negb (truthy_bool (loading lastMsg))
               && source_is_websocket lastMsg
               && negb (match lastPlayedAudioRef cb with
                        | Some u => streq u (String a r)
                        | None => false
                        end)
            then
              toggleAudio (String a r) play_ok
                {| livekitToken := livekitToken cb; voiceMode := voiceMode cb;
                   connectionError := connectionError cb; input := input cb;
                   audios := audios cb; currentAudio := currentAudio cb;
                   isPlaying := isPlaying cb;
                   lastPlayedAudioRef := Some (String a r);
                   speech := speech cb |}
            else cb
        | _ => cb
        end
    | None => cb
    end.

Section Send.

(** `!input.trim()`: the input holds nothing but white space. *)
Variable blank : string -> bool.

(** `handleSend`, lines 134-142, with `onSend` bound to `sendMessage` as
    `Home` binds it; [loading_session] and [listening] are the values the
    component was rendered with. *)
Definition handleSend (loading_session listening : bool)
    (view : ChatBox * State) : ChatBox * State :=
  let (cb, st) := view in
  if blank (input cb) || loading_session || voiceMode cb then (cb, st)
  else
    ({| livekitToken := livekitToken cb; voiceMode := voiceMode cb;
        connectionError := connectionError cb; input := EmptyString;
        audios := audios cb; currentAudio := currentAudio cb;
        isPlaying := isPlaying cb;
        lastPlayedAudioRef := lastPlayedAudioRef cb;
        speech := speech cb
                  ++ (if listening then [StopListening] else [])
                  ++ [ResetTranscript] |},
     sendMessage (input cb) st).

End Send.

(** What can happen to the player of the view. *)
Inductive view_event :=
  | VToggleAudio (url : string) (play_ok : bool)
  | VEnded (a : nat)
  | VToggleVoice (reply : token_reply)
  | VAutoplay (msgs : list Message) (play_ok : bool).

(** One event of the view; an element fires `ended` only while playing. *)
Definition view_step (ev : view_event) (cb : ChatBox) : option ChatBox :=
  match ev with
  | VToggleAudio url play_ok => Some (toggleAudio url play_ok cb)
  | VEnded a =>
      match audios cb !! a with
      | Some e => if playing e then Some (onended a cb) else None
      | None => None
      end
  | VToggleVoice reply => Some (toggleVoiceMode reply cb)
  | VAutoplay msgs play_ok => Some (autoplay_effect msgs play_ok cb)
  end.

Fixpoint view_run (evs : list view_event) (cb : ChatBox) : option ChatBox :=
  match evs with
  | [] => Some cb
  | ev :: evs' =>
      match view_step ev cb with
      | Some cb' => view_run evs' cb'
      | None => None
      end
  end.

(** ** Vocabulary of the further properties *)

(** No event of the list is the opening of a socket. *)
Definition no_open (evs : list event) : Prop :=
  Forall (fun ev => match ev with EvOpen _ => False | _ => True end) evs.

(** The user-origin messages of a sequence, in order. *)
Definition from_user (m : Message) : bool :=
  bool_decide (source m = Some user).

Definition user_messages (msgs : list Message) : list Message :=
  filter (fun m => from_user m = true) msgs.

(** Two messages that differ at most in their audio reference. *)
Definition same_but_audio (m m' : Message) : Prop :=
  sender m' = sender m /\ text m' = text m /\ loading m' = loading m /\
  avatarUrl m' = avatarUrl m /\ source m' = source m.

(** A message as the session controller produces them: a user-origin
    message that is not loading, or a socket-origin message. *)
Definition controller_made (m : Message) : Prop :=
  (source m = Some user /\ truthy_bool (loading m) = false)
  \/ source m = Some websocket.

(** At most one element plays, and it is the current one, whose source is
    the URL shown as playing. *)
Definition one_playing (cb : ChatBox) : Prop :=
  forall a e, audios cb !! a = Some e -> playing e = true ->
    currentAudio cb = Some a /\ isPlaying cb = Some (src e).

(** No element plays. *)
Definition silent (cb : ChatBox) : Prop :=
  Forall (fun e => playing e = false) (audios cb).

(** [next] keeps the messages of [prev] that are not loading socket-origin
    messages: each stays at its index with the same sender, text, loading
    flag, avatar and source, and stays the same message altogether unless it
    is a finalized socket-origin Bot message (whose audio may change). *)
Definition kept (prev next : list Message) : Prop :=
  length prev <= length next /\
  forall i m, prev !! i = Some m -> loading_websocket m = false ->
    exists m', next !! i = Some m' /\ same_but_audio m m' /\
      (finalized_bot m = false -> m' = m).

(** * Properties *)

(** ** The trailing element *)

Lemma lastMessage_nil : lastMessage [] = None.
Proof. reflexivity. Qed.

Lemma lastMessage_snoc (l : list Message) (m : Message) :
  lastMessage (l ++ [m]) = Some m.
Proof.
  unfold lastMessage. rewrite length_app. simpl.
  replace (length l + 1 - 1) with (length l + 0) by lia.
  rewrite lookup_app_r by lia.
  replace (length l + 0 - length l) with 0 by lia. reflexivity.
Qed.

Lemma lastMessage_last (l : list Message) : lastMessage l = last l.
Proof.
  destruct l as [|x l] using rev_ind; [reflexivity|].
  rewrite lastMessage_snoc, last_snoc. reflexivity.
Qed.

Lemma lastMessage_inv (l : list Message) (m : Message) :
  lastMessage l = Some m -> exists pre, l = pre ++ [m].
Proof.
  destruct l as [|x l _] using rev_ind; [discriminate|].
  rewrite lastMessage_snoc. intros [= ->]. eauto.
Qed.

Lemma set_last_snoc (l : list Message) (m m' : Message) :
  set_last (l ++ [m]) m' = l ++ [m'].
Proof.
  unfold set_last. rewrite length_app. simpl.
  replace (length l + 1 - 1) with (length l + 0) by lia.
  rewrite insert_app_r. reflexivity.
Qed.

Lemma last_is_loading_websocket_snoc (l : list Message) (m : Message) :
  last_is_loading_websocket (l ++ [m])
  = truthy_bool (loading m) && source_is_websocket m.
Proof. unfold last_is_loading_websocket. rewrite lastMessage_snoc. reflexivity. Qed.

Lemma last_is_loading_websocket_inv (l : list Message) :
  last_is_loading_websocket l = true ->
  exists pre m, l = pre ++ [m] /\ truthy_bool (loading m) = true
                /\ source m = Some websocket.
Proof.
  unfold last_is_loading_websocket.
  destruct (lastMessage l) as [m|] eqn:E; [|discriminate].
  intros H. apply andb_true_iff in H as [H1 H2].
  apply lastMessage_inv in E as [pre ->].
  exists pre, m. repeat split; try assumption.
  unfold source_is_websocket in H2. by apply bool_decide_eq_true in H2.
Qed.

(** ** Dispatch of `onmessage` *)

Lemma event_is_eq (data : ws_data) (tag : string) :
  event_is data tag = true <-> d_event data = Some tag.
Proof.
  unfold event_is, streq. destruct (d_event data) as [e|].
  - rewrite String.eqb_eq. split; [intros ->; reflexivity | intros [= ->]; reflexivity].
  - split; discriminate.
Qed.

Lemma is_event_inv (tag : string) (data : ws_data) :
  is_event tag data = true ->
  truthy_str (d_error data) = false /\ d_event data = Some tag.
Proof.
  unfold is_event. intros H. apply andb_true_iff in H as [H1 H2].
  apply negb_true_iff in H1. apply event_is_eq in H2. auto.
Qed.

Ltac dispatch H :=
  apply is_event_inv in H as [?Herr ?Hev];
  unfold handle_data, event_is;
  match goal with
  | He : truthy_str (d_error ?d) = false, Hv : d_event ?d = Some _ |- _ =>
      rewrite Hv; destruct (d_error d) as [[|? ?]|]; try discriminate He;
      reflexivity
  end.

Section Dispatch.

Variable env : option string.

Lemma handle_data_error (data : ws_data) (a : ascii) (r : string)
    (prev : list Message) :
  d_error data = Some (String a r) ->
  handle_data env data prev = error_update (String a r) prev.
Proof. unfold handle_data. intros ->. reflexivity. Qed.

Lemma handle_data_partial_text (data : ws_data) (prev : list Message) :
  is_event "partial_text" data = true ->
  handle_data env data prev = partial_text_update (d_text data) prev.
Proof. intros H. dispatch H. Qed.

Lemma handle_data_done (data : ws_data) (prev : list Message) :
  is_event "done" data = true ->
  handle_data env data prev = done_update env data prev.
Proof. intros H. dispatch H. Qed.

Lemma handle_data_audio_ready (data : ws_data) (prev : list Message) :
  is_event "audio_ready" data = true ->
  handle_data env data prev = audio_ready_update env data prev.
Proof. intros H. dispatch H. Qed.

Lemma handle_data_audio_error (data : ws_data) (prev : list Message) :
  is_event "audio_error" data = true ->
  handle_data env data prev = audio_error_update (d_message data) prev.
Proof. intros H. dispatch H. Qed.

Lemma handle_data_processing (data : ws_data) (prev : list Message) :
  is_event "processing" data = true -> handle_data env data prev = prev.
Proof. intros H. dispatch H. Qed.

End Dispatch.

(** ** Streaming of fragments and finalisation (`partial_text`, `done`) *)

Lemma append_empty_r (s : string) : (s ++ EmptyString)%string = s.
Proof. induction s as [|a s IH]; simpl; [reflexivity | by rewrite IH]. Qed.

Lemma append_assoc (a b c : string) :
  ((a ++ b) ++ c)%string = (a ++ (b ++ c))%string.
Proof. induction a as [|x a IH]; simpl; [reflexivity | by rewrite IH]. Qed.

Lemma extended_empty (m : Message) :
  truthy_bool (loading m) = true -> extended m EmptyString = m.
Proof.
  destruct m as [s t a [[|]|] v o]; try discriminate. intros _.
  unfold extended; simpl. by rewrite append_empty_r.
Qed.

Lemma extended_extended (m : Message) (s t : string) :
  extended (extended m s) t = extended m (s ++ t)%string.
Proof. unfold extended; simpl. by rewrite append_assoc. Qed.

Lemma loading_websocket_extended (m : Message) (s : string) :
  source m = Some websocket -> loading_websocket (extended m s) = true.
Proof.
  intros H. unfold loading_websocket, source_is_websocket; simpl.
  by rewrite bool_decide_eq_true_2.
Qed.

Lemma partial_text_update_pending (pre : list Message) (m : Message)
    (fragment : string) :
  loading_websocket m = true ->
  partial_text_update fragment (pre ++ [m]) = pre ++ [extended m fragment].
Proof.
  intros H. unfold partial_text_update, loading_websocket in *.
  rewrite lastMessage_snoc, H. apply set_last_snoc.
Qed.

Lemma partial_text_update_fresh (msgs : list Message) (fragment : string) :
  last_is_loading_websocket msgs = false ->
  partial_text_update fragment msgs
  = msgs ++ [ {| sender := "Bot"; text := fragment; audio := None;
                 loading := Some true; avatarUrl := None;
                 source := Some websocket |} ].
Proof.
  unfold partial_text_update, last_is_loading_websocket, push.
  destruct (lastMessage msgs) as [m|]; [|reflexivity]. by intros ->.
Qed.

Lemma stream_pending (fragments : list string) (pre : list Message)
    (m : Message) :
  loading_websocket m = true ->
  stream fragments (pre ++ [m])
  = pre ++ [extended m (concat_fragments fragments)].
Proof.
  revert m. induction fragments as [|f fs IH]; intros m H; simpl.
  - rewrite extended_empty; [reflexivity|].
    unfold loading_websocket in H. by apply andb_true_iff in H as [? _].
  - rewrite partial_text_update_pending by assumption.
    rewrite IH.
    + by rewrite extended_extended.
    + apply loading_websocket_extended.
      unfold loading_websocket, source_is_websocket in H.
      apply andb_true_iff in H as [_ H]. by apply bool_decide_eq_true in H.
Qed.

Lemma stream_fresh (f : string) (fs : list string) (msgs : list Message) :
  last_is_loading_websocket msgs = false ->
  stream (f :: fs) msgs
  = msgs ++ [ {| sender := "Bot"; text := concat_fragments (f :: fs);
                 audio := None; loading := Some true; avatarUrl := None;
                 source := Some websocket |} ].
Proof.
  intros H. change (stream (f :: fs) msgs)
    with (stream fs (partial_text_update f msgs)).
  rewrite partial_text_update_fresh by assumption.
  by rewrite stream_pending.
Qed.

Lemma foldl_handle_partial_text (env : option string) (ds : list ws_data)
    (msgs : list Message) :
  Forall (fun d => is_event "partial_text" d = true) ds ->
  foldl (fun acc d => handle_data env d acc) msgs ds
  = stream (map d_text ds) msgs.
Proof.
  intros H. revert msgs. induction H as [|d ds Hd _ IH]; intros msgs; simpl.
  - reflexivity.
  - rewrite handle_data_partial_text by assumption. apply IH.
Qed.

Lemma done_update_last (env : option string) (data : ws_data)
    (msgs : list Message) :
  lastMessage (done_update env data msgs) = Some (done_message env data).
Proof.
  unfold done_update.
  destruct (last_is_loading_websocket msgs) eqn:E.
  - apply last_is_loading_websocket_inv in E as (pre & m & -> & _).
    rewrite set_last_snoc. apply lastMessage_snoc.
  - apply lastMessage_snoc.
Qed.

(** C1 (as amended).  For every run of `partial_text` envelopes followed by
    a `done` envelope, from any message sequence: while the fragments
    stream, the trailing message is a loading socket-origin message whose
    text is the text it started with followed by the concatenation of the
    fragments; once `done` is handled, the trailing message is a finalized
    socket-origin Bot message whose text is the `done` answer when that
    answer is a non-empty string, and the fixed fallback text otherwise.
    The streamed concatenation does not survive `done`. *)
Theorem done_text_after_stream (env : option string) (msgs : list Message)
    (ds : list ws_data) (dn : ws_data) :
  Forall (fun d => is_event "partial_text" d = true) ds ->
  is_event "done" dn = true ->
  let streamed := foldl (fun acc d => handle_data env d acc) msgs ds in
  let final := handle_data env dn streamed in
  (ds <> [] \/ last_is_loading_websocket msgs = true ->
   exists m, lastMessage streamed = Some m /\ loading_websocket m = true /\
     text m = (pending_text msgs ++ concat_fragments (map d_text ds))%string)
  /\
  (exists m, lastMessage final = Some m /\ sender m = "Bot" /\
     loading m = Some false /\ source m = Some websocket /\
     text m = match d_answer dn with
              | Some (String a r) => String a r
              | _ => "I couldn't generate an answer."
              end).
Proof.
  intros Hds Hdn streamed final. split.
  - intros Hne. subst streamed. rewrite foldl_handle_partial_text by assumption.
    destruct (last_is_loading_websocket msgs) eqn:E.
    + apply last_is_loading_websocket_inv in E as (pre & m & -> & Hl & Hs).
      assert (Hm : loading_websocket m = true).
      { unfold loading_websocket, source_is_websocket.
        rewrite Hl. by rewrite bool_decide_eq_true_2. }
      rewrite stream_pending by assumption.
      exists (extended m (concat_fragments (map d_text ds))).
      rewrite lastMessage_snoc. split; [reflexivity|]. split.
      * by apply loading_websocket_extended.
      * unfold pending_text. by rewrite lastMessage_snoc, Hm.
    + destruct Hne as [Hne|Hne]; [|discriminate].
      destruct ds as [|d ds']; [congruence|]. simpl map.
      rewrite stream_fresh by assumption. eexists.
      rewrite lastMessage_snoc. split; [reflexivity|]. split; [reflexivity|].
      simpl text. unfold pending_text.
      unfold last_is_loading_websocket in E.
      destruct (lastMessage msgs) as [m|]; [|reflexivity].
      unfold loading_websocket. by rewrite E.
  - subst final. rewrite handle_data_done by assumption.
    exists (done_message env dn). rewrite done_update_last.
    repeat split; reflexivity.
Qed.

Lemma done_text_after_stream_witness :
  exists m,
    lastMessage
      (handle_data None (done_event (Some "Hi there") None)
         (foldl (fun acc d => handle_data None d acc)
            [user_message "Hello"; placeholder]
            [partial_text_event "Hi"])) = Some m
    /\ text m = "Hi there".
Proof.
  destruct (done_text_after_stream None [user_message "Hello"; placeholder]
              [partial_text_event "Hi"] (done_event (Some "Hi there") None))
    as [_ (m & Hm & _ & _ & _ & Ht)].
  - repeat constructor.
  - reflexivity.
  - exists m. split; [exact Hm | exact Ht].
Defined.

(** C1, counterexample.  After the fragments "Hi" and " there", a `done`
    envelope without an answer leaves the fallback text in the trailing
    message, not the concatenation "Hi there". *)
Lemma done_without_answer_drops_stream :
  let ds := [partial_text_event "Hi"; partial_text_event " there"] in
  let dn := done_event None None in
  let final :=
    handle_data None dn
      (foldl (fun acc d => handle_data None d acc)
         [user_message "Hello"; placeholder] ds) in
  Forall (fun d => is_event "partial_text" d = true) ds /\
  is_event "done" dn = true /\ d_answer dn = None /\
  text <$> lastMessage final = Some "I couldn't generate an answer." /\
  text <$> lastMessage final <> Some (concat_fragments (map d_text ds)).
Proof.
  cbv zeta. split; [repeat constructor|].
  split; [reflexivity|]. split; [reflexivity|].
  split; [reflexivity|]. vm_compute. discriminate.
Qed.

(** ** The scan of `audio_ready` *)

Lemma audio_scan_skip (n : nat) (url : option string) (l : list Message) :
  (forall j x, j < n -> l !! j = Some x -> finalized_bot x = false) ->
  audio_scan n url l = l.
Proof.
  induction n as [|i IH]; intros H; simpl; [reflexivity|].
  destruct (l !! i) as [x|] eqn:E; [|reflexivity].
  rewrite (H i x) by (assumption || lia).
  apply IH. intros j y Hj. apply H. lia.
Qed.

Lemma audio_scan_hit (n : nat) (url : option string) (l : list Message)
    (k : nat) (m : Message) :
  l !! k = Some m -> finalized_bot m = true -> k < n -> n <= length l ->
  (forall j x, k < j < n -> l !! j = Some x -> finalized_bot x = false) ->
  audio_scan n url l = <[k := with_audio m url]> l.
Proof.
  induction n as [|i IH]; intros Hk Hm Hlt Hlen Hpost; [lia|]. simpl.
  destruct (l !! i) as [x|] eqn:E.
  - destruct (decide (i = k)) as [->|Hne].
    + rewrite Hk in E. injection E as <-. rewrite Hm. reflexivity.
    + rewrite (Hpost i x) by (assumption || lia).
      apply IH; try assumption; try lia.
      intros j y Hj. apply Hpost. lia.
  - apply lookup_ge_None in E. lia.
Qed.

Lemma audio_scan_split (url : option string) (pre post : list Message)
    (m : Message) :
  finalized_bot m = true ->
  Forall (fun x => finalized_bot x = false) post ->
  audio_scan (length (pre ++ m :: post)) url (pre ++ m :: post)
  = pre ++ with_audio m url :: post.
Proof.
  intros Hm Hpost.
  rewrite (audio_scan_hit _ url _ (length pre) m).
  - rewrite insert_app_r_alt by lia.
    replace (length pre - length pre) with 0 by lia. reflexivity.
  - rewrite lookup_app_r by lia.
    replace (length pre - length pre) with 0 by lia. reflexivity.
  - assumption.
  - rewrite length_app; simpl; lia.
  - lia.
  - intros j x Hj Hx.
    rewrite lookup_app_r in Hx by lia.
    destruct (j - length pre) as [|j'] eqn:Ej; [lia|]. simpl in Hx.
    rewrite Forall_lookup in Hpost. by apply (Hpost j' x).
Qed.

(** C5 (as amended).  For every message sequence containing no finalized
    (non-loading) socket-origin Bot message, handling an `audio_ready`
    envelope leaves the message sequence unchanged. *)
Theorem audio_ready_without_finalized_bot (env : option string)
    (data : ws_data) (msgs : list Message) :
  is_event "audio_ready" data = true ->
  Forall (fun m => finalized_bot m = false) msgs ->
  handle_data env data msgs = msgs.
Proof.
  intros Hev Hall. rewrite handle_data_audio_ready by assumption.
  unfold audio_ready_update. apply audio_scan_skip.
  intros j x _ Hx. rewrite Forall_lookup in Hall. by apply (Hall j x).
Qed.

Lemma audio_ready_without_finalized_bot_witness :
  handle_data None (audio_ready_event (Some "http://cdn/a.mp3"))
    [user_message "Hello"; placeholder]
  = [user_message "Hello"; placeholder].
Proof.
  apply audio_ready_without_finalized_bot.
  - reflexivity.
  - repeat constructor.
Defined.

(** C5, counterexample.  The sequence holds no loading message at all, yet
    `audio_ready` changes it: the audio reference lands on the finalized
    Bot message. *)
Lemma audio_ready_changes_finalized_sequence :
  let bot := {| sender := "Bot"; text := "Hi there"; audio := None;
                loading := Some false; avatarUrl := None;
                source := Some websocket |} in
  let msgs := [user_message "Hello"; bot] in
  Forall (fun m => truthy_bool (loading m) = false) msgs /\
  handle_data None (audio_ready_event (Some "http://cdn/a.mp3")) msgs
  = [user_message "Hello"; with_audio bot (Some "http://cdn/a.mp3")] /\
  handle_data None (audio_ready_event (Some "http://cdn/a.mp3")) msgs <> msgs.
Proof.
  cbv zeta. split; [repeat constructor|]. split; [reflexivity|].
  vm_compute. discriminate.
Qed.

(** C6 (as amended).  For every message sequence, handling an `audio_ready`
    envelope sets the audio reference of the most recent finalized
    (non-loading) socket-origin Bot message to the envelope's resolved
    audio reference, whether or not that message already had one, and
    modifies no other message. *)
Theorem audio_ready_attaches_to_last_finalized (env : option string)
    (data : ws_data) (pre post : list Message) (m : Message) :
  is_event "audio_ready" data = true ->
  finalized_bot m = true ->
  Forall (fun x => finalized_bot x = false) post ->
  handle_data env data (pre ++ m :: post)
  = pre ++ with_audio m (audioUrl env data) :: post.
Proof.
  intros Hev Hm Hpost. rewrite handle_data_audio_ready by assumption.
  unfold audio_ready_update. by apply audio_scan_split.
Qed.

Lemma audio_ready_attaches_to_last_finalized_witness :
  let bot := {| sender := "Bot"; text := "Hi there"; audio := None;
                loading := Some false; avatarUrl := None;
                source := Some websocket |} in
  handle_data None (audio_ready_event (Some "/audio/a.mp3"))
    ([user_message "Hello"] ++ bot :: [user_message "More"; placeholder])
  = [user_message "Hello"] ++
    with_audio bot (Some "http://127.0.0.1:8000/audio/a.mp3")
    :: [user_message "More"; placeholder].
Proof.
  cbv zeta.
  apply (audio_ready_attaches_to_last_finalized None
           (audio_ready_event (Some "/audio/a.mp3"))).
  - reflexivity.
  - reflexivity.
  - repeat constructor.
Defined.

(** C6, counterexample.  The older Bot message lacks an audio reference and
    the newer one has one; `audio_ready` overwrites the newer one and leaves
    the older one without audio. *)
Lemma audio_ready_overwrites_existing_audio :
  let older := {| sender := "Bot"; text := "First"; audio := None;
                  loading := Some false; avatarUrl := None;
                  source := Some websocket |} in
  let newer := {| sender := "Bot"; text := "Second";
                  audio := Some "http://cdn/old.mp3";
                  loading := Some false; avatarUrl := None;
                  source := Some websocket |} in
  let after :=
    handle_data None (audio_ready_event (Some "http://cdn/new.mp3"))
      [older; newer] in
  after = [older; with_audio newer (Some "http://cdn/new.mp3")] /\
  after <> [with_audio older (Some "http://cdn/new.mp3"); newer].
Proof.
  cbv zeta. split; [reflexivity|]. vm_compute. discriminate.
Qed.

(** ** Malformed payloads *)

(** C7.  For every payload on which `JSON.parse` throws, `onmessage`
    returns the state it was given: neither the message sequence nor any
    other part of the state changes. *)
Theorem onmessage_parse_failure (env : option string)
    (JSON_parse : string -> option json) (payload : string) (st : State) :
  JSON_parse payload = None ->
  onmessage env JSON_parse payload st = st.
Proof. intros H. unfold onmessage. by rewrite H. Qed.

Lemma onmessage_parse_failure_witness :
  sample_parse "{oops" = None /\
  onmessage None sample_parse "{oops"
    (init_state (Some "s1") [("Hello", "Hi there")])
  = init_state (Some "s1") [("Hello", "Hi there")].
Proof.
  split; [reflexivity|].
  apply (onmessage_parse_failure None sample_parse). reflexivity.
Defined.

(** A payload that parses to an object reaches the chain of branches: the
    handler's whole effect is the updater of [handle_data]. *)
Lemma onmessage_parsed (env : option string)
    (JSON_parse : string -> option json) (payload : string) (data : ws_data)
    (st : State) :
  JSON_parse payload = Some (JData data) ->
  onmessage env JSON_parse payload st
  = setMessages (handle_data env data) st.
Proof. intros H. unfold onmessage. by rewrite H. Qed.

(** ** Upstream errors (`error`, `audio_error`) *)

Lemma error_text_error (data : ws_data) (a : ascii) (r : string) :
  d_error data = Some (String a r) ->
  error_text data = ("Error: " ++ String a r)%string.
Proof. unfold error_text. by intros ->. Qed.

Lemma error_text_audio_error (data : ws_data) :
  truthy_str (d_error data) = false ->
  error_text data = ("Error generating audio: " ++ d_message data)%string.
Proof. unfold error_text. by destruct (d_error data) as [[|? ?]|]. Qed.

(** Both error branches are the same updater up to the text. *)
Lemma error_branches (env : option string) (data : ws_data)
    (msgs : list Message) :
  is_error data = true \/ is_event "audio_error" data = true ->
  handle_data env data msgs
  = if (0 <? length msgs)%nat && last_is_loading_websocket msgs then
      set_last msgs
        {| sender := "Bot"; text := error_text data; audio := None;
           loading := Some false; avatarUrl := None;
           source := Some websocket |}
    else msgs.
Proof.
  intros [H|H].
  - unfold is_error in H.
    destruct (d_error data) as [[|a r]|] eqn:E; try discriminate.
    rewrite (handle_data_error env data a r) by assumption.
    by rewrite (error_text_error data a r).
  - rewrite handle_data_audio_error by assumption.
    apply is_event_inv in H as [H _].
    by rewrite error_text_audio_error.
Qed.

(** C8.  When the last element is a loading socket-origin message, an
    `error` or `audio_error` envelope replaces it in place by a non-loading
    Bot message carrying the error text, every other message staying where
    it is and nothing being appended; when the last element is not such a
    message, the sequence is unchanged. *)
Theorem error_replaces_trailing_loading (env : option string)
    (data : ws_data) (msgs : list Message) :
  is_error data = true \/ is_event "audio_error" data = true ->
  (forall pre m, msgs = pre ++ [m] -> loading_websocket m = true ->
     handle_data env data msgs
     = pre ++ [ {| sender := "Bot"; text := error_text data; audio := None;
                   loading := Some false; avatarUrl := None;
                   source := Some websocket |} ])
  /\ (last_is_loading_websocket msgs = false ->
      handle_data env data msgs = msgs).
Proof.
  intros H. rewrite (error_branches env data msgs H). split.
  - intros pre m -> Hm.
    rewrite last_is_loading_websocket_snoc.
    unfold loading_websocket in Hm. rewrite Hm.
    rewrite length_app; simpl.
    replace (0 <? length pre + 1)%nat with true
      by (symmetry; apply Nat.ltb_lt; lia).
    apply set_last_snoc.
  - intros ->. by rewrite andb_false_r.
Qed.

Lemma error_replaces_trailing_loading_witness :
  handle_data None (audio_error_event "tts down")
    ([user_message "Hello"] ++ [placeholder])
  = [user_message "Hello"] ++
    [ {| sender := "Bot"; text := "Error generating audio: tts down";
         audio := None; loading := Some false; avatarUrl := None;
         source := Some websocket |} ]
  /\ handle_data None (error_event "boom") [user_message "Hello"]
     = [user_message "Hello"].
Proof.
  split.
  - apply (proj1 (error_replaces_trailing_loading None
                    (audio_error_event "tts down")
                    ([user_message "Hello"] ++ [placeholder])
                    (or_intror eq_refl))
             [user_message "Hello"] placeholder eq_refl eq_refl).
  - apply (proj2 (error_replaces_trailing_loading None (error_event "boom")
                    [user_message "Hello"] (or_introl eq_refl)) eq_refl).
Defined.

(** ** `done` without a placeholder *)

(** C10.  When the last element is not a loading socket-origin message, a
    `done` envelope appends one finalized socket-origin Bot message that
    carries the answer (the fallback text when the answer is absent or
    empty) and the resolved optional audio reference. *)
Theorem done_appends_without_placeholder (env : option string)
    (data : ws_data) (msgs : list Message) :
  is_event "done" data = true ->
  last_is_loading_websocket msgs = false ->
  handle_data env data msgs
  = msgs ++ [ {| sender := "Bot";
                 text := match d_answer data with
                         | Some (String a r) => String a r
                         | _ => fallback_answer
                         end;
                 audio := audioUrl env data; loading := Some false;
                 avatarUrl := None; source := Some websocket |} ].
Proof.
  intros Hev Hl. rewrite handle_data_done by assumption.
  unfold done_update. rewrite Hl. reflexivity.
Qed.

Lemma done_appends_without_placeholder_witness :
  handle_data None (done_event (Some "Hi there") (Some "/audio/a.mp3"))
    [user_message "Hello"]
  = [user_message "Hello";
     {| sender := "Bot"; text := "Hi there";
        audio := Some "http://127.0.0.1:8000/audio/a.mp3";
        loading := Some false; avatarUrl := None;
        source := Some websocket |}]
  /\ handle_data None (done_event None None) []
     = [ {| sender := "Bot"; text := "I couldn't generate an answer.";
            audio := None; loading := Some false; avatarUrl := None;
            source := Some websocket |} ].
Proof.
  split.
  - apply (done_appends_without_placeholder None
             (done_event (Some "Hi there") (Some "/audio/a.mp3"))
             [user_message "Hello"]); reflexivity.
  - apply (done_appends_without_placeholder None (done_event None None) []);
      reflexivity.
Defined.

(** ** `sendMessage` *)

(** C3.  In every state whose socket is not open (no socket yet, or one
    that is connecting, closing or closed), `sendMessage` appends exactly
    the one error message to the message sequence and changes nothing else:
    the session identifier stays as it is and nothing is handed to
    `send`. *)
Theorem sendMessage_socket_not_open (text0 : string) (st : State) :
  socket_open st = false ->
  let st' := sendMessage text0 st in
  sessionId st' = sessionId st /\
  messages st' = messages st ++ [connection_lost_message] /\
  sent st' = sent st /\
  sockets st' = sockets st /\ wsRef st' = wsRef st /\
  reconnectAttempts st' = reconnectAttempts st /\ timers st' = timers st.
Proof.
  intros H. unfold sendMessage.
  destruct (sessionId st) as [[|a r]|] eqn:Es;
    destruct (wsRef st) as [i|] eqn:Ew;
    rewrite ?H; simpl; rewrite ?Es, ?Ew; repeat split; reflexivity.
Qed.

Lemma sendMessage_socket_not_open_witness :
  let st := init_state (Some "s1") [("Hello", "Hi there")] in
  let st' := sendMessage "Are you there?" st in
  readyState st = Some CONNECTING /\
  sessionId st' = Some "s1" /\
  messages st' = messages st ++ [connection_lost_message] /\
  sent st' = [].
Proof.
  cbv zeta. split; [reflexivity|].
  destruct (sendMessage_socket_not_open "Are you there?"
              (init_state (Some "s1") [("Hello", "Hi there")]) eq_refl)
    as (Hs & Hm & Hsent & _).
  split; [exact Hs|]. split; [exact Hm | exact Hsent].
Defined.

(** C4.  In every state whose session identifier is set (a non-empty
    string, the test of line 291) and whose socket is open, `sendMessage`
    appends exactly two messages in order, the user message with the input
    as text and then the Bot loading placeholder with empty text and
    socket-origin source, and hands to `send` on the current socket one
    envelope holding the session identifier and the input as question. *)
Theorem sendMessage_socket_open (text0 : string) (st : State) :
  truthy_str (sessionId st) = true ->
  socket_open st = true ->
  let st' := sendMessage text0 st in
  exists sid i,
    sessionId st = Some sid /\ wsRef st = Some i /\
    messages st'
    = messages st ++
      [ {| sender := "You"; text := text0; audio := None; loading := None;
           avatarUrl := None; source := Some user |};
        {| sender := "Bot"; text := EmptyString; audio := None;
           loading := Some true; avatarUrl := None;
           source := Some websocket |} ] /\
    sent st' = sent st ++ [(i, {| session_id := sid; question := text0 |})] /\
    sessionId st' = sessionId st /\ sockets st' = sockets st /\
    wsRef st' = wsRef st.
Proof.
  intros Hs Ho. unfold sendMessage.
  destruct (sessionId st) as [[|a r]|] eqn:Es; try discriminate.
  destruct (wsRef st) as [i|] eqn:Ew.
  - rewrite Ho. exists (String a r), i. simpl.
    rewrite <- app_assoc. simpl. rewrite ?Es, ?Ew. repeat split; reflexivity.
  - unfold socket_open, readyState in Ho. rewrite Ew in Ho. discriminate.
Qed.

Lemma sendMessage_socket_open_witness :
  let st := onopen (set_ready 0 OPEN (init_state (Some "s1") [])) in
  messages (sendMessage "Hello" st) = [user_message "Hello"; placeholder] /\
  sent (sendMessage "Hello" st)
  = [(0, {| session_id := "s1"; question := "Hello" |})].
Proof.
  cbv zeta.
  destruct (sendMessage_socket_open "Hello"
              (onopen (set_ready 0 OPEN (init_state (Some "s1") [])))
              eq_refl eq_refl)
    as (sid & i & Hs & Hw & Hm & Hsent & _).
  simpl in Hs, Hw. injection Hs as <-. injection Hw as <-.
  split; [exact Hm | exact Hsent].
Defined.

(** ** Connection lifecycle *)

Lemma live_count_app (l1 l2 : list ReadyState) :
  live_count (l1 ++ l2) = live_count l1 + live_count l2.
Proof. induction l1 as [|r l1 IH]; simpl; [reflexivity | rewrite IH; lia]. Qed.

Lemma live_count_insert (l : list ReadyState) (i : nat) (r0 r : ReadyState) :
  l !! i = Some r0 ->
  live_count (<[i := r]> l) + (if is_live r0 then 1 else 0)
  = live_count l + (if is_live r then 1 else 0).
Proof.
  revert i. induction l as [|x l IH]; intros i H; [discriminate|].
  destruct i as [|i]; simpl in *.
  - injection H as ->. lia.
  - specialize (IH i H). lia.
Qed.

Lemma live_count_pos (l : list ReadyState) (i : nat) (r : ReadyState) :
  l !! i = Some r -> is_live r = true -> 0 < live_count l.
Proof.
  revert i. induction l as [|x l IH]; intros i H Hr; [discriminate|].
  destruct i as [|i]; simpl in *.
  - injection H as ->. rewrite Hr. lia.
  - specialize (IH i H Hr). lia.
Qed.

Lemma count_terminal_app (l1 l2 : list Message) :
  count_terminal (l1 ++ l2) = count_terminal l1 + count_terminal l2.
Proof. induction l1 as [|m l1 IH]; simpl; [reflexivity | rewrite IH; lia]. Qed.

(** `sendMessage` on a socket that is not open, as one state update. *)
Lemma sendMessage_not_open (text0 : string) (st : State) :
  socket_open st = false ->
  sendMessage text0 st
  = setMessages (fun prev => prev ++ [connection_lost_message]) st.
Proof.
  intros H. unfold sendMessage.
  destruct (sessionId st) as [[|a r]|]; destruct (wsRef st) as [i|];
    rewrite ?H; reflexivity.
Qed.

Lemma dead_socket_not_open (st : State) :
  live_count (sockets st) = 0 -> socket_open st = false.
Proof.
  intros H. unfold socket_open, readyState.
  destruct (wsRef st) as [i|]; [|reflexivity].
  destruct (sockets st !! i) as [r|] eqn:E; [|reflexivity].
  destruct r; try reflexivity.
  pose proof (live_count_pos _ _ _ E eq_refl). lia.
Qed.

Section Lifecycle.

Variable env : option string.
Variable JSON_parse : string -> option json.

Lemma onmessage_frame (payload : string) (st : State) :
  let st' := onmessage env JSON_parse payload st in
  sockets st' = sockets st /\ timers st' = timers st /\
  reconnectAttempts st' = reconnectAttempts st /\ wsRef st' = wsRef st /\
  sessionId st' = sessionId st /\ sent st' = sent st.
Proof.
  unfold onmessage. destruct (JSON_parse payload) as [[|d]|]; simpl; auto 10.
Qed.

Lemma sendMessage_frame (text0 : string) (st : State) :
  let st' := sendMessage text0 st in
  sockets st' = sockets st /\ timers st' = timers st /\
  reconnectAttempts st' = reconnectAttempts st /\ wsRef st' = wsRef st /\
  sessionId st' = sessionId st.
Proof.
  unfold sendMessage. cbv zeta.
  destruct (sessionId st) as [[|a r]|] eqn:Es;
    destruct (wsRef st) as [i|] eqn:Ew;
    try destruct (socket_open st); simpl; rewrite ?Es, ?Ew;
    repeat split; reflexivity.
Qed.

Lemma single_connection_init (session : option string)
    (history : list (string * string)) :
  single_connection (init_state session history).
Proof. unfold single_connection; simpl. lia. Qed.

Lemma single_connection_step (ev : event) (st st' : State) :
  single_connection st ->
  step env JSON_parse ev st = Some st' ->
  single_connection st'.
Proof.
  unfold single_connection. intros Hinv Hstep.
  destruct ev as [i|i payload|i|i|i| |text0]; simpl in Hstep.
  - destruct (sockets st !! i) as [[]|] eqn:E; try discriminate.
    injection Hstep as <-. simpl.
    pose proof (live_count_insert _ _ _ OPEN E). simpl in *. lia.
  - destruct (sockets st !! i) as [[]|] eqn:E; try discriminate.
    injection Hstep as <-.
    destruct (onmessage_frame payload st) as (-> & -> & _). assumption.
  - destruct (sockets st !! i) as [[]|] eqn:E; try discriminate;
      injection Hstep as <-; simpl;
      pose proof (live_count_insert _ _ _ CLOSING E); simpl in *; lia.
  - destruct (sockets st !! i) as [r|] eqn:E; try discriminate.
    injection Hstep as <-. assumption.
  - destruct (sockets st !! i) as [[]|] eqn:E; try discriminate;
      injection Hstep as <-; unfold onclose; simpl;
      pose proof (live_count_insert _ _ _ CLOSED E); simpl in *;
      destruct (reconnectAttempts st <? maxReconnectAttempts)%nat; simpl; lia.
  - destruct (timers st) as [|n] eqn:E; try discriminate.
    injection Hstep as <-. simpl. rewrite live_count_app. simpl. lia.
  - injection Hstep as <-.
    destruct (sendMessage_frame text0 st) as (-> & -> & _). assumption.
Qed.

Lemma single_connection_run (evs : list event) (st st' : State) :
  single_connection st ->
  run env JSON_parse evs st = Some st' ->
  single_connection st'.
Proof.
  revert st. induction evs as [|ev evs IH]; intros st Hinv Hrun; simpl in Hrun.
  - by injection Hrun as <-.
  - destruct (step env JSON_parse ev st) as [st1|] eqn:E; [|discriminate].
    eapply IH; [|exact Hrun]. by eapply single_connection_step.
Qed.

(** Once the connection is dead, the only events left are `sendMessage`
    calls, which find the socket closed, and `error` events on closed
    sockets. *)
Lemma connection_dead_step (ev : event) (st st' : State) :
  connection_dead st ->
  step env JSON_parse ev st = Some st' ->
  connection_dead st' /\ sockets st' = sockets st /\
  reconnectAttempts st' = reconnectAttempts st /\ sent st' = sent st /\
  count_terminal (messages st') = count_terminal (messages st).
Proof.
  intros [Ht Hl] Hstep.
  assert (Hno : forall i r, sockets st !! i = Some r -> is_live r = true -> False).
  { intros i r E Hr. pose proof (live_count_pos _ _ _ E Hr). lia. }
  destruct ev as [i|i payload|i|i|i| |text0]; simpl in Hstep.
  - destruct (sockets st !! i) as [[]|] eqn:E; try discriminate.
    exfalso. by eapply Hno.
  - destruct (sockets st !! i) as [[]|] eqn:E; try discriminate.
    exfalso. by eapply Hno.
  - destruct (sockets st !! i) as [[]|] eqn:E; try discriminate;
      exfalso; by eapply Hno.
  - destruct (sockets st !! i) as [r|] eqn:E; try discriminate.
    injection Hstep as <-. unfold onerror. repeat split; assumption.
  - destruct (sockets st !! i) as [[]|] eqn:E; try discriminate;
      exfalso; by eapply Hno.
  - rewrite Ht in Hstep. discriminate.
  - injection Hstep as <-.
    rewrite sendMessage_not_open by (by apply dead_socket_not_open).
    unfold connection_dead; simpl. rewrite count_terminal_app; simpl.
    repeat split; try assumption; lia.
Qed.

Lemma connection_dead_run (evs : list event) (st st' : State) :
  connection_dead st ->
  run env JSON_parse evs st = Some st' ->
  connection_dead st' /\ sockets st' = sockets st /\
  reconnectAttempts st' = reconnectAttempts st /\ sent st' = sent st /\
  count_terminal (messages st') = count_terminal (messages st).
Proof.
  revert st. induction evs as [|ev evs IH]; intros st Hd Hrun; simpl in Hrun.
  - injection Hrun as <-. repeat split; try reflexivity; apply Hd.
  - destruct (step env JSON_parse ev st) as [st1|] eqn:E; [|discriminate].
    destruct (connection_dead_step _ _ _ Hd E) as (Hd1 & Hs1 & Hr1 & Hx1 & Hc1).
    destruct (IH _ Hd1 Hrun) as (Hd2 & Hs2 & Hr2 & Hx2 & Hc2).
    repeat split; try apply Hd2; congruence.
Qed.

End Lifecycle.

Section Reconnect.

Variable env : option string.
Variable JSON_parse : string -> option json.

Lemma attempts_bounded_step (ev : event) (st st' : State) :
  single_connection st -> attempts_bounded st ->
  step env JSON_parse ev st = Some st' ->
  attempts_bounded st'.
Proof.
  unfold single_connection, attempts_bounded, maxReconnectAttempts.
  intros Hone [Hle Hlt] Hstep.
  destruct ev as [i|i payload|i|i|i| |text0]; simpl in Hstep.
  - destruct (sockets st !! i) as [[]|] eqn:E; try discriminate.
    injection Hstep as <-. simpl. lia.
  - destruct (sockets st !! i) as [[]|] eqn:E; try discriminate.
    injection Hstep as <-.
    destruct (onmessage_frame env JSON_parse payload st) as (_ & -> & -> & _).
    auto.
  - destruct (sockets st !! i) as [[]|] eqn:E; try discriminate;
      injection Hstep as <-; simpl; auto.
  - destruct (sockets st !! i) as [r|] eqn:E; try discriminate.
    injection Hstep as <-. auto.
  - destruct (sockets st !! i) as [[]|] eqn:E; try discriminate;
      injection Hstep as <-; unfold onclose, maxReconnectAttempts; simpl;
      destruct (reconnectAttempts st <? 5)%nat eqn:L; simpl;
      try apply Nat.ltb_lt in L; auto; split; auto; lia.
  - destruct (timers st) as [|n] eqn:E; try discriminate.
    injection Hstep as <-. simpl. lia.
  - injection Hstep as <-.
    destruct (sendMessage_frame text0 st) as (_ & -> & -> & _). auto.
Qed.

Lemma reachable_invariants (session : option string)
    (history : list (string * string)) (evs : list event) (st : State) :
  run env JSON_parse evs (init_state session history) = Some st ->
  single_connection st /\ attempts_bounded st.
Proof.
  assert (G : forall evs s0 s1, single_connection s0 -> attempts_bounded s0 ->
            run env JSON_parse evs s0 = Some s1 ->
            single_connection s1 /\ attempts_bounded s1).
  { clear. intros evs. induction evs as [|ev evs IH]; intros s0 s1 H1 H2 Hrun;
      simpl in Hrun.
    - injection Hrun as <-. auto.
    - destruct (step env JSON_parse ev s0) as [s|] eqn:E; [|discriminate].
      apply (IH s s1); try assumption.
      + by eapply single_connection_step.
      + by eapply attempts_bounded_step. }
  apply G.
  - apply single_connection_init.
  - unfold attempts_bounded, maxReconnectAttempts; simpl. lia.
Qed.

(** C2.  In every run of the connection lifecycle, when a socket closes
    with the reconnect counter at the ceiling (all attempts used up), the
    close handler appends exactly the one terminal message telling the user
    to refresh the page and schedules nothing; from then on, whatever
    happens, no socket is constructed, no timeout is pending, the counter
    stays put and no second terminal message appears. *)
Theorem terminal_message_once (session : option string)
    (history : list (string * string)) (evs : list event) (st : State)
    (i : nat) (st' : State) :
  run env JSON_parse evs (init_state session history) = Some st ->
  step env JSON_parse (EvClose i) st = Some st' ->
  maxReconnectAttempts <= reconnectAttempts st ->
  reconnectAttempts st = maxReconnectAttempts /\
  messages st' = messages st ++ [terminal_message] /\
  text terminal_message
  = "WebSocket connection lost. Please refresh the page." /\
  length (sockets st') = length (sockets st) /\
  forall evs' st'', run env JSON_parse evs' st' = Some st'' ->
    sockets st'' = sockets st' /\ timers st'' = 0 /\
    reconnectAttempts st'' = reconnectAttempts st /\
    count_terminal (messages st'') = count_terminal (messages st) + 1.
Proof.
  intros Hrun Hstep Hmax.
  destruct (reachable_invariants _ _ _ _ Hrun) as [Hone [Hle _]].
  unfold single_connection in Hone.
  assert (Hst' : exists r, sockets st !! i = Some r /\ is_live r = true /\
            st' = onclose (set_ready i CLOSED st)).
  { simpl in Hstep. destruct (sockets st !! i) as [[]|] eqn:E;
      try discriminate; injection Hstep as <-; eauto. }
  destruct Hst' as (r & E & Hr & ->).
  pose proof (live_count_pos _ _ _ E Hr) as Hpos.
  pose proof (live_count_insert _ _ _ CLOSED E) as Hins.
  rewrite Hr in Hins. simpl in Hins.
  assert (Hnot : (reconnectAttempts st <? maxReconnectAttempts)%nat = false)
    by (apply Nat.ltb_ge; lia).
  assert (Hdead : connection_dead (onclose (set_ready i CLOSED st))).
  { unfold connection_dead, onclose. simpl. rewrite Hnot. simpl. lia. }
  split; [lia|]. split; [unfold onclose; simpl; by rewrite Hnot|].
  split; [reflexivity|].
  split; [unfold onclose; simpl; rewrite Hnot; simpl; apply length_insert|].
  intros evs' st'' Hrun'.
  destruct (connection_dead_run env JSON_parse _ _ _ Hdead Hrun')
    as ([Ht _] & Hs & Ha & _ & Hc).
  split; [exact Hs|]. split; [exact Ht|]. split.
  - rewrite Ha. unfold onclose; simpl. by rewrite Hnot.
  - rewrite Hc. unfold onclose; simpl. rewrite Hnot; simpl.
    rewrite count_terminal_app. simpl. lia.
Qed.

End Reconnect.

Lemma terminal_message_once_witness :
  run None sample_parse five_failed_reconnects (init_state (Some "s1") [])
  = Some exhausted_state /\
  step None sample_parse (EvClose 5) exhausted_state = Some given_up_state /\
  messages given_up_state = [terminal_message] /\
  forall evs' st'', run None sample_parse evs' given_up_state = Some st'' ->
    sockets st'' = sockets given_up_state /\ timers st'' = 0.
Proof.
  split; [reflexivity|]. split; [reflexivity|].
  destruct (terminal_message_once None sample_parse (Some "s1") []
              five_failed_reconnects exhausted_state 5 given_up_state
              eq_refl eq_refl (le_n maxReconnectAttempts))
    as (_ & Hm & _ & _ & Hafter).
  split; [exact Hm|].
  intros evs' st'' Hrun. destruct (Hafter evs' st'' Hrun) as (Hs & Ht & _).
  split; [exact Hs | exact Ht].
Defined.

(** ** Shape of the updates and the trailing placeholder *)

Lemma loading_only_last_snoc (pre : list Message) (m : Message) :
  loading_only_last (pre ++ [m]) <-> settled pre.
Proof.
  unfold loading_only_last, settled. rewrite Forall_lookup. split.
  - intros H i x Hx.
    destruct (loading_websocket x) eqn:E; [|reflexivity].
    pose proof (lookup_lt_Some _ _ _ Hx) as Hlt.
    specialize (H i x (lookup_app_l_Some _ _ _ _ Hx) E).
    rewrite length_app in H. simpl in H. lia.
  - intros H i x Hx Hl. rewrite length_app; simpl.
    apply lookup_snoc_Some in Hx as [[_ Hx]|[-> _]]; [|lia].
    rewrite (H i x Hx) in Hl. discriminate.
Qed.

(** The property gives both halves of the invariant: a loading
    socket-origin message is last, and two of them are the same element. *)
Lemma loading_only_last_unique (msgs : list Message) (i j : nat)
    (mi mj : Message) :
  loading_only_last msgs ->
  msgs !! i = Some mi -> loading_websocket mi = true ->
  msgs !! j = Some mj -> loading_websocket mj = true ->
  i = j /\ lastMessage msgs = Some mi.
Proof.
  intros H Hi Li Hj Lj.
  pose proof (H i mi Hi Li) as Ei. pose proof (H j mj Hj Lj) as Ej.
  split; [lia|]. unfold lastMessage. rewrite <- Ei. simpl.
  by rewrite Nat.sub_0_r.
Qed.

Lemma loading_only_last_settled (msgs : list Message) :
  settled msgs -> loading_only_last msgs.
Proof.
  unfold loading_only_last, settled. rewrite Forall_lookup.
  intros H i m Hm Hl. rewrite (H i m Hm) in Hl. discriminate.
Qed.

Lemma settled_snoc (pre : list Message) (m : Message) :
  settled pre -> loading_websocket m = false -> settled (pre ++ [m]).
Proof. intros H Hm. apply Forall_app. split; [exact H | by constructor]. Qed.

Lemma loading_only_last_no_pending (msgs : list Message) :
  loading_only_last msgs -> last_is_loading_websocket msgs = false ->
  settled msgs.
Proof.
  destruct msgs as [|m pre _] using rev_ind; [constructor|].
  rewrite loading_only_last_snoc, last_is_loading_websocket_snoc.
  intros H Hm. by apply settled_snoc.
Qed.

Lemma loading_only_last_set_last (msgs : list Message) (m' : Message) :
  loading_only_last msgs -> loading_only_last (set_last msgs m').
Proof.
  destruct msgs as [|m pre _] using rev_ind; [intros _ i x; discriminate|].
  rewrite set_last_snoc, !loading_only_last_snoc. auto.
Qed.

Lemma loading_only_last_push (msgs : list Message) (x : Message) :
  loading_only_last msgs -> last_is_loading_websocket msgs = false ->
  loading_only_last (msgs ++ [x]).
Proof.
  intros H Hl. apply loading_only_last_snoc.
  by apply loading_only_last_no_pending.
Qed.

Lemma loading_websocket_with_audio (m : Message) (url : option string) :
  loading_websocket (with_audio m url) = loading_websocket m.
Proof. reflexivity. Qed.

Lemma loading_only_last_insert_audio (msgs : list Message) (k : nat)
    (m : Message) (url : option string) :
  msgs !! k = Some m -> loading_only_last msgs ->
  loading_only_last (<[k := with_audio m url]> msgs).
Proof.
  unfold loading_only_last. intros Hk H i x Hx Hl. rewrite length_insert.
  apply list_lookup_insert_Some in Hx as [(-> & <- & _)|[_ Hx]].
  - apply (H i m Hk). by rewrite <- (loading_websocket_with_audio m url).
  - by apply (H i x).
Qed.

Lemma audio_scan_cases (n : nat) (url : option string) (l : list Message) :
  audio_scan n url l = l \/
  exists k m, l !! k = Some m /\ finalized_bot m = true /\
    audio_scan n url l = <[k := with_audio m url]> l.
Proof.
  induction n as [|i IH]; simpl; [by left|].
  destruct (l !! i) as [m|] eqn:E; [|by left].
  destruct (finalized_bot m) eqn:F; [|exact IH].
  right. exists i, m. auto.
Qed.

Lemma audio_attached_insert (l : list Message) (k : nat) (m : Message)
    (url : option string) :
  l !! k = Some m -> finalized_bot m = true ->
  audio_attached l (<[k := with_audio m url]> l).
Proof.
  intros Hk Hm. exists (take k l), m, (drop (S k) l), url.
  split; [symmetry; by apply take_drop_middle|]. split; [assumption|].
  apply insert_take_drop. by eapply lookup_lt_Some.
Qed.

Lemma replaced_set_last (l : list Message) (m' : Message) :
  last_is_loading_websocket l = true ->
  replaced_trailing_loading l (set_last l m').
Proof.
  intros H. apply last_is_loading_websocket_inv in H as (pre & m & -> & Hl & Hs).
  exists pre, m, m'. split; [reflexivity|]. split; [|apply set_last_snoc].
  unfold loading_websocket, source_is_websocket.
  rewrite Hl. by rewrite bool_decide_eq_true_2.
Qed.

(** What the updater of any envelope can be. *)
Lemma handle_data_cases (env : option string) (data : ws_data)
    (l : list Message) :
  handle_data env data l = l \/
  (exists m', last_is_loading_websocket l = true /\
     handle_data env data l = set_last l m') \/
  (exists x, last_is_loading_websocket l = false /\
     handle_data env data l = l ++ [x]) \/
  (exists url, handle_data env data l = audio_scan (length l) url l).
Proof.
  assert (Herr : forall m', (if (0 <? length l)%nat && last_is_loading_websocket l
                     then set_last l m' else l) = l \/
            exists m'', last_is_loading_websocket l = true /\
              (if (0 <? length l)%nat && last_is_loading_websocket l
               then set_last l m' else l) = set_last l m'').
  { intros m'. destruct (0 <? length l)%nat; simpl; [|by left].
    destruct (last_is_loading_websocket l); [right; eauto | by left]. }
  assert (Hpt : forall f, (exists m', last_is_loading_websocket l = true /\
                   partial_text_update f l = set_last l m') \/
            (exists x, last_is_loading_websocket l = false /\
               partial_text_update f l = l ++ [x])).
  { intros f. unfold partial_text_update, last_is_loading_websocket, push.
    destruct (lastMessage l) as [m|]; [|right; eauto].
    destruct (truthy_bool (loading m) && source_is_websocket m);
      [left | right]; eauto. }
  unfold handle_data.
  destruct (d_error data) as [[|a r]|].
  2: { unfold error_update. destruct (Herr
         {| sender := "Bot"; text := ("Error: " ++ String a r)%string;
            audio := None; loading := Some false; avatarUrl := None;
            source := Some websocket |}) as [H|H]; [by left | right; by left]. }
  all: destruct (event_is data "processing"); [by left|];
    destruct (event_is data "partial_text");
      [destruct (Hpt (d_text data)) as [H|H]; right; [by left | right; by left]|];
    destruct (event_is data "done");
      [unfold done_update, push;
       destruct (last_is_loading_websocket l); right;
       [left | right; left]; eauto|];
    destruct (event_is data "audio_ready");
      [right; right; right; unfold audio_ready_update; eauto|];
    destruct (event_is data "audio_error"); [|by left];
    unfold audio_error_update;
    destruct (Herr
      {| sender := "Bot";
         text := ("Error generating audio: " ++ d_message data)%string;
         audio := None; loading := Some false; avatarUrl := None;
         source := Some websocket |}) as [H|H]; [by left | right; by left].
Qed.

Lemma handle_data_shape (env : option string) (data : ws_data)
    (l : list Message) :
  appended l (handle_data env data l) \/
  replaced_trailing_loading l (handle_data env data l) \/
  audio_attached l (handle_data env data l).
Proof.
  destruct (handle_data_cases env data l)
    as [->|[(m' & H & ->)|[(x & _ & ->)|(url & ->)]]].
  - left. exists []. by rewrite app_nil_r.
  - right; left. by apply replaced_set_last.
  - left. by exists [x].
  - destruct (audio_scan_cases (length l) url l) as [->|(k & m & Hk & Hm & ->)].
    + left. exists []. by rewrite app_nil_r.
    + right; right. by apply audio_attached_insert.
Qed.

Lemma handle_data_loading_only_last (env : option string) (data : ws_data)
    (l : list Message) :
  loading_only_last l -> loading_only_last (handle_data env data l).
Proof.
  intros Hl.
  destruct (handle_data_cases env data l)
    as [->|[(m' & H & ->)|[(x & H & ->)|(url & ->)]]].
  - assumption.
  - by apply loading_only_last_set_last.
  - by apply loading_only_last_push.
  - destruct (audio_scan_cases (length l) url l) as [->|(k & m & Hk & Hm & ->)].
    + assumption.
    + by apply loading_only_last_insert_audio.
Qed.

Lemma sendMessage_messages (text0 : string) (st : State) :
  messages (sendMessage text0 st)
  = messages st ++ [user_message text0; placeholder]
  \/ messages (sendMessage text0 st)
     = messages st ++ [connection_lost_message].
Proof.
  unfold sendMessage.
  destruct (sessionId st) as [[|a r]|]; destruct (wsRef st) as [i|];
    try destruct (socket_open st); simpl; rewrite <- ?app_assoc; auto.
Qed.

Lemma onclose_messages (st : State) :
  messages (onclose st) = messages st
  \/ messages (onclose st) = messages st ++ [terminal_message].
Proof.
  unfold onclose.
  destruct (reconnectAttempts st <? maxReconnectAttempts)%nat; simpl; auto.
Qed.

(** C9 (as amended).  Every operation on the message sequence either
    appends messages, or replaces the trailing loading socket-origin
    message in place, or (`audio_ready`) changes the audio reference of one
    finalized socket-origin Bot message.  Handling a socket message, like
    every operation other than `sendMessage` and the `close` handler,
    preserves the property that a loading socket-origin message, if any, is
    the last element (so there is at most one); `sendMessage` and the
    `close` handler append after whatever is there, so they establish that
    property only from a sequence with no loading socket-origin message. *)
Theorem step_updates_messages (env : option string)
    (JSON_parse : string -> option json) (ev : event) (st st' : State) :
  step env JSON_parse ev st = Some st' ->
  (appended (messages st) (messages st') \/
   replaced_trailing_loading (messages st) (messages st') \/
   audio_attached (messages st) (messages st')) /\
  (appends_blindly ev = false ->
   loading_only_last (messages st) -> loading_only_last (messages st')) /\
  (settled (messages st) -> loading_only_last (messages st')).
Proof.
  intros Hstep.
  assert (Hsame : messages st' = messages st ->
    (appended (messages st) (messages st') \/
     replaced_trailing_loading (messages st) (messages st') \/
     audio_attached (messages st) (messages st')) /\
    (appends_blindly ev = false ->
     loading_only_last (messages st) -> loading_only_last (messages st')) /\
    (settled (messages st) -> loading_only_last (messages st'))).
  { intros ->. split; [left; exists []; by rewrite app_nil_r|].
    split; [auto | apply loading_only_last_settled]. }
  destruct ev as [i|i payload|i|i|i| |text0]; simpl in Hstep.
  - destruct (sockets st !! i) as [[]|]; try discriminate.
    injection Hstep as <-. by apply Hsame.
  - destruct (sockets st !! i) as [[]|]; try discriminate.
    injection Hstep as <-. unfold onmessage in *.
    destruct (JSON_parse payload) as [[|data]|]; try by apply Hsame.
    simpl. split; [apply handle_data_shape|].
    split; [intros _; apply handle_data_loading_only_last|].
    intros H. by apply handle_data_loading_only_last, loading_only_last_settled.
  - destruct (sockets st !! i) as [[]|]; try discriminate;
      injection Hstep as <-; by apply Hsame.
  - destruct (sockets st !! i) as [r|]; try discriminate.
    injection Hstep as <-. by apply Hsame.
  - assert (Hc : st' = onclose (set_ready i CLOSED st))
      by (destruct (sockets st !! i) as [[]|]; try discriminate; congruence).
    subst st'.
    destruct (onclose_messages (set_ready i CLOSED st)) as [E|E];
      simpl in E; [by apply Hsame|]. rewrite E.
    split; [left; by exists [terminal_message]|].
    split; [discriminate|]. apply loading_only_last_snoc.
  - destruct (timers st) as [|n]; try discriminate.
    injection Hstep as <-. by apply Hsame.
  - injection Hstep as <-.
    destruct (sendMessage_messages text0 st) as [E|E]; rewrite E.
    + split; [left; by exists [user_message text0; placeholder]|].
      split; [discriminate|]. intros H.
      change (loading_only_last
                (messages st ++ [user_message text0] ++ [placeholder])).
      rewrite app_assoc. apply loading_only_last_snoc.
      by apply settled_snoc.
    + split; [left; by exists [connection_lost_message]|].
      split; [discriminate|]. apply loading_only_last_snoc.
Qed.

Lemma step_updates_messages_witness :
  step None sample_parse (EvSend "Hello") opened_state
  = Some (sendMessage "Hello" opened_state) /\
  appended (messages opened_state)
    (messages (sendMessage "Hello" opened_state)) /\
  loading_only_last (messages (sendMessage "Hello" opened_state)).
Proof.
  split; [reflexivity|].
  destruct (step_updates_messages None sample_parse (EvSend "Hello")
              opened_state (sendMessage "Hello" opened_state) eq_refl)
    as (_ & _ & Hlast).
  split.
  - by exists [user_message "Hello"; placeholder].
  - apply Hlast. constructor.
Defined.

(** C9, counterexample.  Two `sendMessage` calls on an open socket, with no
    reply in between, leave two loading socket-origin messages, the first
    of them not last; and `audio_ready` changes a finalized message that is
    neither appended nor a trailing loading message. *)
Lemma two_sends_leave_two_placeholders :
  let st := sendMessage "b" (sendMessage "a" opened_state) in
  let next :=
    handle_data None (audio_ready_event (Some "http://cdn/a.mp3")) [answered]
  in
  run None sample_parse [EvOpen 0; EvSend "a"; EvSend "b"]
    (init_state (Some "s1") []) = Some st /\
  messages st
  = [user_message "a"; placeholder; user_message "b"; placeholder] /\
  ~ loading_only_last (messages st) /\
  ~ appended [answered] next /\
  ~ replaced_trailing_loading [answered] next.
Proof.
  cbv zeta. split; [reflexivity|]. split; [reflexivity|]. split; [|split].
  - intros H. specialize (H 1 placeholder eq_refl eq_refl). discriminate.
  - intros [added H]. vm_compute in H. discriminate.
  - intros (pre & m & m' & Hp & Hm & _).
    destruct pre as [|x pre]; simpl in Hp.
    + injection Hp as <-. discriminate.
    + injection Hp as _ Hp. by destruct pre.
Qed.

(** * Further properties of the session controller *)

Section Runs.

Variable env : option string.
Variable JSON_parse : string -> option json.

Lemma run_app (evs1 evs2 : list event) (st : State) :
  run env JSON_parse (evs1 ++ evs2) st
  = match run env JSON_parse evs1 st with
    | Some st1 => run env JSON_parse evs2 st1
    | None => None
    end.
Proof.
  revert st. induction evs1 as [|ev evs1 IH]; intros st; simpl; [reflexivity|].
  destruct (step env JSON_parse ev st); [apply IH | reflexivity].
Qed.

(** A property every step preserves holds along every run. *)
Lemma run_invariant (P : State -> Prop) :
  (forall ev st st', P st -> step env JSON_parse ev st = Some st' -> P st') ->
  forall evs st st', P st -> run env JSON_parse evs st = Some st' -> P st'.
Proof.
  intros Hstep evs. induction evs as [|ev evs IH]; intros st st' HP Hrun;
    simpl in Hrun.
  - by injection Hrun as <-.
  - destruct (step env JSON_parse ev st) as [s|] eqn:E; [|discriminate].
    eapply IH; [|exact Hrun]. by eapply Hstep.
Qed.

(** A reflexive and transitive relation every step satisfies holds between
    the two ends of every run. *)
Lemma run_preorder (R : State -> State -> Prop) :
  (forall st, R st st) ->
  (forall a b c, R a b -> R b c -> R a c) ->
  (forall ev st st', step env JSON_parse ev st = Some st' -> R st st') ->
  forall evs st st', run env JSON_parse evs st = Some st' -> R st st'.
Proof.
  intros Hr Ht Hs evs. induction evs as [|ev evs IH]; intros st st' Hrun;
    simpl in Hrun.
  - injection Hrun as <-. apply Hr.
  - destruct (step env JSON_parse ev st) as [s|] eqn:E; [|discriminate].
    eapply Ht; [by eapply Hs | by apply IH].
Qed.

(** The message sequence after one step, operation by operation. *)
Lemma step_messages (ev : event) (st st' : State) :
  step env JSON_parse ev st = Some st' ->
  messages st' = messages st
  \/ (exists data, messages st' = handle_data env data (messages st))
  \/ messages st' = messages st ++ [terminal_message]
  \/ (exists text0, messages st'
        = messages st ++ [user_message text0; placeholder])
  \/ messages st' = messages st ++ [connection_lost_message].
Proof.
  intros Hstep. destruct ev as [i|i payload|i|i|i| |text0]; simpl in Hstep.
  - destruct (sockets st !! i) as [[]|]; try discriminate.
    injection Hstep as <-. by left.
  - destruct (sockets st !! i) as [[]|]; try discriminate.
    injection Hstep as <-. unfold onmessage.
    destruct (JSON_parse payload) as [[|data]|]; try by left.
    right; left. by exists data.
  - destruct (sockets st !! i) as [[]|]; try discriminate;
      injection Hstep as <-; by left.
  - destruct (sockets st !! i) as [r|]; try discriminate.
    injection Hstep as <-. by left.
  - assert (Hc : st' = onclose (set_ready i CLOSED st))
      by (destruct (sockets st !! i) as [[]|]; try discriminate; congruence).
    subst st'. destruct (onclose_messages (set_ready i CLOSED st)) as [E|E];
      simpl in E; rewrite E; auto.
  - destruct (timers st) as [|n]; try discriminate.
    injection Hstep as <-. by left.
  - injection Hstep as <-.
    destruct (sendMessage_messages text0 st) as [E|E]; rewrite E; eauto 10.
Qed.

End Runs.

(** X1.  In every state a run reaches from the state `initSession` leaves,
    at most one thing can still bring the connection back (a socket that is
    not closed, or one scheduled reconnect timeout, never both and never
    two), and the reconnect counter is at most the ceiling of 5. *)
Theorem reachable_one_connection (env : option string)
    (JSON_parse : string -> option json) (session : option string)
    (history : list (string * string)) (evs : list event) (st : State) :
  run env JSON_parse evs (init_state session history) = Some st ->
  timers st + live_count (sockets st) <= 1 /\
  reconnectAttempts st <= 5.
Proof.
  intros Hrun.
  destruct (reachable_invariants env JSON_parse _ _ _ _ Hrun) as [H1 [H2 _]].
  split; [exact H1 | exact H2].
Qed.

Lemma reachable_one_connection_witness :
  timers exhausted_state + live_count (sockets exhausted_state) <= 1 /\
  reconnectAttempts exhausted_state <= 5.
Proof.
  apply (reachable_one_connection None sample_parse (Some "s1") []
           five_failed_reconnects exhausted_state).
  reflexivity.
Defined.

(** ** Every updater, with the message it writes *)

Lemma trailing_loading_inv (l : list Message) :
  last_is_loading_websocket l = true ->
  exists pre m, l = pre ++ [m] /\ loading_websocket m = true.
Proof.
  intros H. apply last_is_loading_websocket_inv in H as (pre & m & -> & Hl & Hs).
  exists pre, m. split; [reflexivity|].
  unfold loading_websocket, source_is_websocket.
  rewrite Hl. by rewrite bool_decide_eq_true_2.
Qed.

Lemma loading_websocket_source (m : Message) :
  loading_websocket m = true -> source m = Some websocket.
Proof.
  unfold loading_websocket, source_is_websocket. intros H.
  apply andb_true_iff in H as [_ H]. by apply bool_decide_eq_true in H.
Qed.

Lemma finalized_bot_source (m : Message) :
  finalized_bot m = true -> source m = Some websocket.
Proof.
  unfold finalized_bot, source_is_websocket. intros H.
  apply andb_true_iff in H as [_ H]. by apply bool_decide_eq_true in H.
Qed.

Lemma finalized_bot_not_loading (m : Message) :
  finalized_bot m = true -> loading_websocket m = false.
Proof.
  unfold finalized_bot, loading_websocket. intros H.
  apply andb_true_iff in H as [H _]. apply andb_true_iff in H as [_ H].
  apply negb_true_iff in H. by rewrite H.
Qed.

Lemma guarded_set_last (l : list Message) (e : Message) :
  (if (0 <? length l)%nat && last_is_loading_websocket l
   then set_last l e else l) = l
  \/ exists pre m, l = pre ++ [m] /\ loading_websocket m = true /\
       (if (0 <? length l)%nat && last_is_loading_websocket l
        then set_last l e else l) = pre ++ [e].
Proof.
  destruct (last_is_loading_websocket l) eqn:E.
  - right. destruct (trailing_loading_inv l E) as (pre & m & -> & Hm).
    exists pre, m. split; [reflexivity|]. split; [assumption|].
    rewrite length_app; simpl.
    replace (0 <? length pre + 1)%nat with true
      by (symmetry; apply Nat.ltb_lt; lia).
    apply set_last_snoc.
  - left. by rewrite andb_false_r.
Qed.

(** The updater of any envelope either changes nothing, or rewrites the
    trailing loading socket-origin message into a socket-origin message,
    or appends one socket-origin message to a sequence that does not end
    in a loading one, or rewrites the audio reference of one finalized
    socket-origin Bot message. *)
Lemma handle_data_precise (env : option string) (data : ws_data)
    (l : list Message) :
  handle_data env data l = l
  \/ (exists pre m m', l = pre ++ [m] /\ loading_websocket m = true /\
        source m' = Some websocket /\
        (truthy_bool (loading m') = true -> is_event "partial_text" data = true) /\
        handle_data env data l = pre ++ [m'])
  \/ (exists x, last_is_loading_websocket l = false /\
        source x = Some websocket /\
        (is_event "partial_text" data = true \/ is_event "done" data = true) /\
        handle_data env data l = l ++ [x])
  \/ (exists pre m post url, l = pre ++ m :: post /\ finalized_bot m = true /\
        handle_data env data l = pre ++ with_audio m url :: post).
Proof.
  unfold handle_data, is_event.
  destruct (d_error data) as [[|a r]|] eqn:Eerr; simpl negb; simpl andb.
  2: { unfold error_update.
       destruct (guarded_set_last l
         {| sender := "Bot"; text := ("Error: " ++ String a r)%string;
            audio := None; loading := Some false; avatarUrl := None;
            source := Some websocket |}) as [H|(pre & m & Hl & Hm & H)];
         [by left | right; left].
       exists pre, m. eexists. split; [exact Hl|]. split; [exact Hm|].
       split; [|split; [|exact H]]; [reflexivity | discriminate]. }
  all: destruct (event_is data "processing"); [by left|];
    destruct (event_is data "partial_text") eqn:Ept.
  all: try (destruct (last_is_loading_websocket l) eqn:E;
    [ destruct (trailing_loading_inv l E) as (pre & m & -> & Hm);
      right; left; exists pre, m, (extended m (d_text data));
      split; [reflexivity|]; split; [assumption|];
      split; [simpl; by apply loading_websocket_source|];
      split; [reflexivity|];
      by apply partial_text_update_pending
    | right; right; left; eexists; split; [reflexivity|];
      split; [|split; [by left|by apply partial_text_update_fresh]];
      reflexivity ]).
  all: destruct (event_is data "done") eqn:Edn.
  all: try (unfold done_update, push;
    destruct (last_is_loading_websocket l) eqn:E;
    [ destruct (trailing_loading_inv l E) as (pre & m & -> & Hm);
      right; left; exists pre, m, (done_message env data);
      split; [reflexivity|]; split; [assumption|];
      split; [reflexivity|]; split; [discriminate|];
      apply set_last_snoc
    | right; right; left; exists (done_message env data);
      split; [reflexivity|]; split; [reflexivity|];
      split; [by right | reflexivity] ]).
  all: destruct (event_is data "audio_ready").
  all: try (unfold audio_ready_update;
    destruct (audio_scan_cases (length l) (audioUrl env data) l)
      as [->|(k & m & Hk & Hm & ->)]; [by left|];
    right; right; right;
    exists (take k l), m, (drop (S k) l), (audioUrl env data);
    split; [symmetry; by apply take_drop_middle|];
    split; [assumption|];
    apply insert_take_drop; by eapply lookup_lt_Some).
  all: destruct (event_is data "audio_error"); [|by left].
  all: unfold audio_error_update;
    destruct (guarded_set_last l
      {| sender := "Bot";
         text := ("Error generating audio: " ++ d_message data)%string;
         audio := None; loading := Some false; avatarUrl := None;
         source := Some websocket |}) as [H|(pre & m & Hl & Hm & H)];
    [by left | right; left];
    exists pre, m; eexists; split; [exact Hl|]; split; [exact Hm|];
    (split; [|split; [|exact H]]; [reflexivity | discriminate]).
Qed.

(** X2.  Handling an envelope never shortens the message sequence, and
    lengthens it by exactly one in one situation only: a `partial_text` or
    `done` envelope arriving when the sequence does not end in a loading
    socket-origin message.  Errors, `audio_ready`, `audio_error`,
    `processing` and unknown envelopes leave the length as it is. *)
Theorem handle_data_length (env : option string) (data : ws_data)
    (l : list Message) :
  length (handle_data env data l)
  = length l
    + (if (is_event "partial_text" data || is_event "done" data)
          && negb (last_is_loading_websocket l)
       then 1 else 0).
Proof.
  destruct (is_event "partial_text" data) eqn:Ept.
  - rewrite handle_data_partial_text by assumption. simpl.
    destruct (last_is_loading_websocket l) eqn:E; simpl.
    + destruct (trailing_loading_inv l E) as (pre & m & -> & Hm).
      rewrite partial_text_update_pending by assumption.
      rewrite !length_app. simpl. lia.
    + rewrite partial_text_update_fresh by assumption.
      rewrite length_app. simpl. lia.
  - destruct (is_event "done" data) eqn:Edn.
    + rewrite handle_data_done by assumption. simpl. unfold done_update, push.
      destruct (last_is_loading_websocket l) eqn:E; simpl.
      * destruct (trailing_loading_inv l E) as (pre & m & -> & Hm).
        rewrite set_last_snoc, !length_app. simpl. lia.
      * rewrite length_app. simpl. lia.
    + simpl.
      destruct (handle_data_precise env data l)
        as [->|[(pre & m & m' & -> & _ & _ & _ & ->)
               |[(x & _ & _ & [H|H] & _)
                |(pre & m & post & url & -> & _ & ->)]]];
        try congruence; rewrite ?length_app; simpl; lia.
Qed.

(** ** Messages that stay *)

Lemma same_but_audio_refl (m : Message) : same_but_audio m m.
Proof. unfold same_but_audio. auto. Qed.

Lemma same_but_audio_trans (a b c : Message) :
  same_but_audio a b -> same_but_audio b c -> same_but_audio a c.
Proof.
  unfold same_but_audio. intros (?&?&?&?&?) (?&?&?&?&?).
  repeat split; congruence.
Qed.

Lemma same_but_audio_flags (m m' : Message) :
  same_but_audio m m' ->
  loading_websocket m' = loading_websocket m
  /\ finalized_bot m' = finalized_bot m.
Proof.
  intros (Hs & _ & Hl & _ & Ho).
  unfold loading_websocket, finalized_bot, source_is_websocket.
  by rewrite Hs, Hl, Ho.
Qed.

Lemma kept_refl (l : list Message) : kept l l.
Proof.
  split; [lia|]. intros i m Hm _. exists m.
  split; [assumption|]. split; [apply same_but_audio_refl | reflexivity].
Qed.

Lemma kept_trans (a b c : list Message) : kept a b -> kept b c -> kept a c.
Proof.
  intros [Hl1 H1] [Hl2 H2]. split; [lia|]. intros i m Hm Hload.
  destruct (H1 i m Hm Hload) as (m1 & Hm1 & Hs1 & He1).
  destruct (same_but_audio_flags _ _ Hs1) as [Hf1 Hf2].
  destruct (H2 i m1 Hm1) as (m2 & Hm2 & Hs2 & He2); [congruence|].
  exists m2. split; [assumption|].
  split; [by eapply same_but_audio_trans|].
  intros Hfin. rewrite <- (He1 Hfin). apply He2. congruence.
Qed.

Lemma kept_app (l added : list Message) : kept l (l ++ added).
Proof.
  split; [rewrite length_app; lia|]. intros i m Hm _. exists m.
  split; [by apply lookup_app_l_Some|].
  split; [apply same_but_audio_refl | reflexivity].
Qed.

Lemma kept_replace_last (pre : list Message) (m m' : Message) :
  loading_websocket m = true -> kept (pre ++ [m]) (pre ++ [m']).
Proof.
  intros Hm. split; [rewrite !length_app; simpl; lia|].
  intros i x Hx Hload.
  apply lookup_snoc_Some in Hx as [[_ Hx]|[_ <-]]; [|congruence].
  exists x. split; [by apply lookup_app_l_Some|].
  split; [apply same_but_audio_refl | reflexivity].
Qed.

Lemma kept_audio (pre post : list Message) (m : Message)
    (url : option string) :
  finalized_bot m = true ->
  kept (pre ++ m :: post) (pre ++ with_audio m url :: post).
Proof.
  intros Hm. split; [rewrite !length_app; simpl; lia|].
  intros i x Hx _.
  apply lookup_app_Some in Hx as [Hx|[Hge Hx]].
  - exists x. split; [by apply lookup_app_l_Some|].
    split; [apply same_but_audio_refl | reflexivity].
  - destruct (i - length pre) as [|j] eqn:Ej; simpl in Hx.
    + injection Hx as <-. exists (with_audio m url).
      split; [|split; [unfold same_but_audio; simpl; auto | congruence]].
      apply lookup_app_Some. right. split; [assumption|]. by rewrite Ej.
    + exists x. split; [|split; [apply same_but_audio_refl | reflexivity]].
      apply lookup_app_Some. right. split; [assumption|]. by rewrite Ej.
Qed.

Lemma kept_handle_data (env : option string) (data : ws_data)
    (l : list Message) :
  kept l (handle_data env data l).
Proof.
  destruct (handle_data_precise env data l)
    as [->|[(pre & m & m' & -> & Hm & _ & _ & ->)
           |[(x & _ & _ & _ & ->)
            |(pre & m & post & url & -> & Hm & ->)]]].
  - apply kept_refl.
  - by apply kept_replace_last.
  - apply kept_app.
  - by apply kept_audio.
Qed.

Lemma kept_step (env : option string) (JSON_parse : string -> option json)
    (ev : event) (st st' : State) :
  step env JSON_parse ev st = Some st' ->
  kept (messages st) (messages st').
Proof.
  intros H.
  destruct (step_messages env JSON_parse ev st st' H)
    as [->|[[data ->]|[->|[[text0 ->]| ->]]]];
    auto using kept_refl, kept_app, kept_handle_data.
Qed.

Lemma kept_run (env : option string) (JSON_parse : string -> option json)
    (evs : list event) (st st' : State) :
  run env JSON_parse evs st = Some st' ->
  kept (messages st) (messages st').
Proof.
  apply (run_preorder env JSON_parse
           (fun a b => kept (messages a) (messages b))).
  - intros a. apply kept_refl.
  - intros a b c. apply kept_trans.
  - intros ev a b. apply kept_step.
Qed.

(** X3.  Along every run, from any state, the message sequence never gets
    shorter: no operation of the controller removes a message. *)
Theorem messages_never_shrink (env : option string)
    (JSON_parse : string -> option json) (evs : list event)
    (st st' : State) :
  run env JSON_parse evs st = Some st' ->
  length (messages st) <= length (messages st').
Proof. intros H. apply (kept_run env JSON_parse evs st st' H). Qed.

Lemma messages_never_shrink_witness :
  length (messages (init_state (Some "s1") []))
  <= length (messages given_up_state).
Proof.
  apply (messages_never_shrink None sample_parse
           (five_failed_reconnects ++ [EvClose 5])
           (init_state (Some "s1") []) given_up_state).
  reflexivity.
Defined.

(** X4.  Along every run, a message that is not a loading socket-origin
    message keeps its index, sender, text, loading flag, avatar and source
    for ever; and unless it is a finalized socket-origin Bot message (whose
    audio reference `audio_ready` may rewrite) it stays exactly the same
    message.  In particular user messages are never touched. *)
Theorem settled_messages_keep_place (env : option string)
    (JSON_parse : string -> option json) (evs : list event)
    (st st' : State) (i : nat) (m : Message) :
  run env JSON_parse evs st = Some st' ->
  messages st !! i = Some m ->
  loading_websocket m = false ->
  exists m', messages st' !! i = Some m' /\
    sender m' = sender m /\ text m' = text m /\ loading m' = loading m /\
    avatarUrl m' = avatarUrl m /\ source m' = source m /\
    (finalized_bot m = false -> m' = m).
Proof.
  intros Hrun Hm Hload.
  destruct (kept_run env JSON_parse evs st st' Hrun) as [_ H].
  destruct (H i m Hm Hload) as (m' & Hm' & (?&?&?&?&?) & He).
  exists m'. auto 10.
Qed.

Lemma settled_messages_keep_place_witness :
  exists m',
    messages (sendMessage "b" (sendMessage "a" opened_state)) !! 0 = Some m'
    /\ m' = user_message "a".
Proof.
  destruct (settled_messages_keep_place None sample_parse [EvSend "b"]
              (sendMessage "a" opened_state)
              (sendMessage "b" (sendMessage "a" opened_state))
              0 (user_message "a") eq_refl eq_refl eq_refl)
    as (m' & Hm' & _ & _ & _ & _ & _ & He).
  exists m'. split; [exact Hm' | exact (He eq_refl)].
Defined.

(** ** Who made the messages *)

Lemma user_messages_app (l1 l2 : list Message) :
  user_messages (l1 ++ l2) = user_messages l1 ++ user_messages l2.
Proof. apply filter_app. Qed.

Lemma user_messages_cons_websocket (m : Message) (l : list Message) :
  source m = Some websocket -> user_messages (m :: l) = user_messages l.
Proof.
  intros H. unfold user_messages. apply filter_cons_False.
  unfold from_user. rewrite bool_decide_eq_false_2; [discriminate | congruence].
Qed.

Lemma user_messages_cons_user (m : Message) (l : list Message) :
  source m = Some user -> user_messages (m :: l) = m :: user_messages l.
Proof.
  intros H. unfold user_messages. apply filter_cons_True.
  unfold from_user. by rewrite bool_decide_eq_true_2.
Qed.

Lemma user_messages_handle_data (env : option string) (data : ws_data)
    (l : list Message) :
  user_messages (handle_data env data l) = user_messages l.
Proof.
  destruct (handle_data_precise env data l)
    as [->|[(pre & m & m' & -> & Hm & Hm' & _ & ->)
           |[(x & _ & Hx & _ & ->)
            |(pre & m & post & url & -> & Hm & ->)]]].
  - reflexivity.
  - rewrite !user_messages_app.
    rewrite (user_messages_cons_websocket m') by assumption.
    by rewrite (user_messages_cons_websocket m)
      by (by apply loading_websocket_source).
  - rewrite user_messages_app.
    rewrite (user_messages_cons_websocket x) by assumption.
    simpl. by rewrite app_nil_r.
  - rewrite !user_messages_app.
    rewrite (user_messages_cons_websocket (with_audio m url))
      by (simpl; by apply finalized_bot_source).
    by rewrite (user_messages_cons_websocket m)
      by (by apply finalized_bot_source).
Qed.

Lemma controller_made_handle_data (env : option string) (data : ws_data)
    (l : list Message) :
  Forall controller_made l -> Forall controller_made (handle_data env data l).
Proof.
  intros H.
  destruct (handle_data_precise env data l)
    as [->|[(pre & m & m' & -> & Hm & Hm' & _ & ->)
           |[(x & _ & Hx & _ & ->)
            |(pre & m & post & url & -> & Hm & ->)]]].
  - assumption.
  - apply Forall_app in H as [H _]. apply Forall_app. split; [assumption|].
    apply Forall_cons_2; [by right | apply Forall_nil_2].
  - apply Forall_app. split; [assumption|].
    apply Forall_cons_2; [by right | apply Forall_nil_2].
  - apply Forall_app in H as [H1 H2]. apply Forall_cons in H2 as [_ H2].
    apply Forall_app. split; [assumption|].
    apply Forall_cons_2; [|assumption].
    right. simpl. by apply finalized_bot_source.
Qed.

Lemma controller_made_seed (history : list (string * string)) :
  Forall controller_made (seed_history history).
Proof.
  unfold seed_history. induction history as [|h history IH]; simpl;
    [constructor|].
  apply Forall_app. split; [|exact IH].
  unfold seed_entry.
  destruct (truthy_str (Some h.1)); destruct (truthy_str (Some h.2)); simpl;
    repeat first [apply Forall_nil_2 | apply Forall_cons_2];
    unfold controller_made; simpl; auto.
Qed.

(** `sendMessage`, with what it appends and what it sends. *)
Lemma sendMessage_cases (text0 : string) (st : State) :
  (messages (sendMessage text0 st) = messages st ++ [connection_lost_message]
   /\ sent (sendMessage text0 st) = sent st)
  \/ exists a r i,
       sessionId st = Some (String a r) /\ wsRef st = Some i /\
       sockets st !! i = Some OPEN /\
       messages (sendMessage text0 st)
       = messages st ++ [user_message text0; placeholder] /\
       sent (sendMessage text0 st)
       = sent st ++ [(i, {| session_id := String a r; question := text0 |})].
Proof.
  destruct (socket_open st) eqn:E.
  - unfold sendMessage. rewrite E.
    destruct (sessionId st) as [[|a r]|] eqn:Es;
      destruct (wsRef st) as [i|] eqn:Ew; simpl; auto.
    right. exists a, r, i. rewrite <- app_assoc. simpl.
    repeat split; try reflexivity.
    unfold socket_open, readyState in E. rewrite Ew in E.
    by destruct (sockets st !! i) as [[]|].
  - left. rewrite sendMessage_not_open by assumption. auto.
Qed.

Section Provenance.

Variable env : option string.
Variable JSON_parse : string -> option json.

(** What a step leaves alone: the session identifier for ever, the
    sockets already constructed as sockets. *)
Lemma step_frame (ev : event) (st st' : State) :
  step env JSON_parse ev st = Some st' ->
  sessionId st' = sessionId st /\ length (sockets st) <= length (sockets st').
Proof.
  intros Hstep. destruct ev as [i|i payload|i|i|i| |text0]; simpl in Hstep.
  - destruct (sockets st !! i) as [[]|]; try discriminate.
    injection Hstep as <-. simpl. rewrite length_insert. auto.
  - destruct (sockets st !! i) as [[]|]; try discriminate.
    injection Hstep as <-.
    destruct (onmessage_frame env JSON_parse payload st)
      as (-> & _ & _ & _ & -> & _). auto.
  - destruct (sockets st !! i) as [[]|]; try discriminate;
      injection Hstep as <-; simpl; rewrite length_insert; auto.
  - destruct (sockets st !! i) as [r|]; try discriminate.
    injection Hstep as <-. auto.
  - assert (Hc : st' = onclose (set_ready i CLOSED st))
      by (destruct (sockets st !! i) as [[]|]; try discriminate; congruence).
    subst st'. unfold onclose.
    destruct (reconnectAttempts _ <? maxReconnectAttempts)%nat; simpl;
      rewrite length_insert; auto.
  - destruct (timers st) as [|n]; try discriminate.
    injection Hstep as <-. simpl. rewrite length_app. simpl. split; [auto|lia].
  - injection Hstep as <-.
    destruct (sendMessage_frame text0 st) as (-> & _ & _ & _ & ->). auto.
Qed.

(** The frames a step sends, with the messages it appends along. *)
Lemma step_sent (ev : event) (st st' : State) :
  step env JSON_parse ev st = Some st' ->
  (sent st' = sent st /\
   user_messages (messages st') = user_messages (messages st))
  \/ exists text0 a r i,
       sessionId st = Some (String a r) /\ sockets st !! i = Some OPEN /\
       messages st' = messages st ++ [user_message text0; placeholder] /\
       sent st'
       = sent st ++ [(i, {| session_id := String a r; question := text0 |})].
Proof.
  intros Hstep.
  assert (Hsame : sent st' = sent st -> messages st' = messages st ->
    (sent st' = sent st /\
     user_messages (messages st') = user_messages (messages st))
    \/ exists text0 a r i,
       sessionId st = Some (String a r) /\ sockets st !! i = Some OPEN /\
       messages st' = messages st ++ [user_message text0; placeholder] /\
       sent st'
       = sent st ++ [(i, {| session_id := String a r; question := text0 |})])
    by (intros -> ->; by left).
  destruct ev as [i|i payload|i|i|i| |text0]; simpl in Hstep.
  - destruct (sockets st !! i) as [[]|]; try discriminate.
    injection Hstep as <-. by apply Hsame.
  - destruct (sockets st !! i) as [[]|]; try discriminate.
    injection Hstep as <-. left.
    destruct (onmessage_frame env JSON_parse payload st)
      as (_ & _ & _ & _ & _ & ->). split; [reflexivity|].
    unfold onmessage. destruct (JSON_parse payload) as [[|data]|];
      try reflexivity.
    simpl. apply user_messages_handle_data.
  - destruct (sockets st !! i) as [[]|]; try discriminate;
      injection Hstep as <-; by apply Hsame.
  - destruct (sockets st !! i) as [r|]; try discriminate.
    injection Hstep as <-. by apply Hsame.
  - assert (Hc : st' = onclose (set_ready i CLOSED st))
      by (destruct (sockets st !! i) as [[]|]; try discriminate; congruence).
    subst st'. left. unfold onclose.
    destruct (reconnectAttempts _ <? maxReconnectAttempts)%nat; simpl;
      split; try reflexivity.
    rewrite user_messages_app.
    rewrite (user_messages_cons_websocket terminal_message) by reflexivity.
    simpl. by rewrite app_nil_r.
  - destruct (timers st) as [|n]; try discriminate.
    injection Hstep as <-. by apply Hsame.
  - injection Hstep as <-.
    destruct (sendMessage_cases text0 st)
      as [[Hm Hs]|(a & r & i & H1 & H2 & H3 & H4 & H5)].
    + left. split; [assumption|]. rewrite Hm, user_messages_app.
      rewrite (user_messages_cons_websocket connection_lost_message)
        by reflexivity.
      simpl. by rewrite app_nil_r.
    + right. exists text0, a, r, i. auto.
Qed.

Lemma controller_made_step (ev : event) (st st' : State) :
  Forall controller_made (messages st) ->
  step env JSON_parse ev st = Some st' ->
  Forall controller_made (messages st').
Proof.
  intros H Hstep.
  destruct (step_messages env JSON_parse ev st st' Hstep)
    as [->|[[data ->]|[->|[[text0 ->]| ->]]]].
  - assumption.
  - by apply controller_made_handle_data.
  - apply Forall_app. split; [assumption|].
    apply Forall_cons_2; [by right | apply Forall_nil_2].
  - apply Forall_app. split; [assumption|].
    apply Forall_cons_2; [left; by split|].
    apply Forall_cons_2; [by right | apply Forall_nil_2].
  - apply Forall_app. split; [assumption|].
    apply Forall_cons_2; [by right | apply Forall_nil_2].
Qed.

Lemma reachable_controller_made (session : option string)
    (history : list (string * string)) (evs : list event) (st : State) :
  run env JSON_parse evs (init_state session history) = Some st ->
  Forall controller_made (messages st).
Proof.
  apply (run_invariant env JSON_parse
           (fun s => Forall controller_made (messages s))).
  - intros ev a b. apply controller_made_step.
  - apply controller_made_seed.
Qed.

End Provenance.

(** X5.  The session identifier `initSession` stored never changes along a
    run, and every frame handed to `send` carries it, is sent only when it
    is a non-empty string, and goes to a socket that was constructed. *)
Theorem session_fixed_and_stamped (env : option string)
    (JSON_parse : string -> option json) (session : option string)
    (history : list (string * string)) (evs : list event) (st : State) :
  run env JSON_parse evs (init_state session history) = Some st ->
  sessionId st = session /\
  Forall (fun frame =>
            session = Some (session_id frame.2) /\
            session_id frame.2 <> EmptyString /\
            frame.1 < length (sockets st))
    (sent st).
Proof.
  apply (run_invariant env JSON_parse
    (fun s => sessionId s = session /\
       Forall (fun frame =>
                 session = Some (session_id frame.2) /\
                 session_id frame.2 <> EmptyString /\
                 frame.1 < length (sockets s)) (sent s))).
  - intros ev a b [Hs Hf] Hstep.
    destruct (step_frame env JSON_parse ev a b Hstep) as [Hs' Hlen].
    split; [congruence|].
    assert (Hold : Forall (fun frame =>
                 session = Some (session_id frame.2) /\
                 session_id frame.2 <> EmptyString /\
                 frame.1 < length (sockets b)) (sent a)).
    { eapply Forall_impl; [exact Hf|]. intros f (?&?&?).
      repeat split; try assumption. lia. }
    destruct (step_sent env JSON_parse ev a b Hstep)
      as [[-> _]|(text0 & x & r & i & H1 & H2 & _ & ->)]; [assumption|].
    apply Forall_app. split; [assumption|].
    apply Forall_cons_2; [|apply Forall_nil_2]. simpl.
    split; [congruence|]. split; [discriminate|].
    apply lookup_lt_Some in H2. lia.
  - split; [reflexivity | apply Forall_nil_2].
Qed.

Lemma session_fixed_and_stamped_witness :
  sessionId (sendMessage "b" (sendMessage "a" opened_state)) = Some "s1" /\
  Forall (fun frame =>
            Some "s1" = Some (session_id frame.2) /\
            session_id frame.2 <> EmptyString /\
            frame.1 < length (sockets (sendMessage "b" (sendMessage "a" opened_state))))
    (sent (sendMessage "b" (sendMessage "a" opened_state))).
Proof.
  apply (session_fixed_and_stamped None sample_parse (Some "s1") []
           [EvOpen 0; EvSend "a"; EvSend "b"]).
  reflexivity.
Defined.

(** X6.  In every reachable state the user-origin messages on display are
    the ones seeded from the history followed by one message per frame
    sent, in the order sent and with the question sent as text: no
    question is shown without being sent, sent without being shown, or
    shown twice. *)
Theorem questions_sent_are_shown (env : option string)
    (JSON_parse : string -> option json) (session : option string)
    (history : list (string * string)) (evs : list event) (st : State) :
  run env JSON_parse evs (init_state session history) = Some st ->
  user_messages (messages st)
  = user_messages (seed_history history)
    ++ map (fun frame => user_message (question frame.2)) (sent st).
Proof.
  apply (run_invariant env JSON_parse
    (fun s => user_messages (messages s)
              = user_messages (seed_history history)
                ++ map (fun frame => user_message (question frame.2)) (sent s))).
  - intros ev a b Hinv Hstep.
    destruct (step_sent env JSON_parse ev a b Hstep)
      as [[-> ->]|(text0 & x & r & i & _ & _ & -> & ->)]; [assumption|].
    rewrite user_messages_app, map_app, Hinv, <- app_assoc.
    reflexivity.
  - simpl. by rewrite app_nil_r.
Qed.

Lemma questions_sent_are_shown_witness :
  user_messages (messages (sendMessage "b" (sendMessage "a" opened_state)))
  = user_messages (seed_history [])
    ++ map (fun frame => user_message (question frame.2))
         (sent (sendMessage "b" (sendMessage "a" opened_state))).
Proof.
  apply (questions_sent_are_shown None sample_parse (Some "s1") []
           [EvOpen 0; EvSend "a"; EvSend "b"]).
  reflexivity.
Defined.

Lemma filter_all (P : Message -> Prop) `{forall m, Decision (P m)}
    (l : list Message) :
  Forall P l -> filter P l = l.
Proof.
  induction 1 as [|m l Hm _ IH]; [reflexivity|].
  rewrite filter_cons_True by assumption. by rewrite IH.
Qed.

(** X7.  The controller never produces a voice-origin message, so the
    filter the view applies outside voice mode hides nothing of a
    reachable message sequence: what is rendered is the whole sequence, in
    either mode. *)
Theorem view_shows_all_messages (env : option string)
    (JSON_parse : string -> option json) (session : option string)
    (history : list (string * string)) (evs : list event) (st : State)
    (voice_mode : bool) :
  run env JSON_parse evs (init_state session history) = Some st ->
  filteredMessages voice_mode (messages st) = messages st.
Proof.
  intros Hrun. unfold filteredMessages. destruct voice_mode; [reflexivity|].
  apply filter_all.
  eapply Forall_impl;
    [exact (reachable_controller_made env JSON_parse _ _ _ _ Hrun)|].
  intros m [[H _]|H]; rewrite H; discriminate.
Qed.

Lemma view_shows_all_messages_witness :
  filteredMessages false
    (messages (sendMessage "b" (sendMessage "a" opened_state)))
  = [user_message "a"; placeholder; user_message "b"; placeholder].
Proof.
  apply (view_shows_all_messages None sample_parse (Some "s1") []
           [EvOpen 0; EvSend "a"; EvSend "b"]).
  reflexivity.
Defined.

(** X8.  In every reachable state the typing indicator of the view
    (`botIsTyping`) is on exactly when the sequence ends in a loading
    socket-origin message, the one the handlers of `partial_text`, `done`
    and the error envelopes act on. *)
Theorem typing_indicator_tracks_placeholder (env : option string)
    (JSON_parse : string -> option json) (session : option string)
    (history : list (string * string)) (evs : list event) (st : State) :
  run env JSON_parse evs (init_state session history) = Some st ->
  botIsTyping (messages st) = last_is_loading_websocket (messages st).
Proof.
  intros Hrun.
  pose proof (reachable_controller_made env JSON_parse _ _ _ _ Hrun) as Hall.
  unfold botIsTyping, last_is_loading_websocket.
  destruct (lastMessage (messages st)) as [m|] eqn:E; [|reflexivity].
  apply lastMessage_inv in E as [pre E]. rewrite E in *.
  apply Forall_app in Hall as [_ Hm]. apply Forall_cons in Hm as [Hm _].
  rewrite length_app. simpl.
  replace (0 <? length pre + 1)%nat with true
    by (symmetry; apply Nat.ltb_lt; lia).
  unfold source_is_websocket. destruct Hm as [[Hs Hl]|Hs]; rewrite Hs.
  - rewrite Hl. reflexivity.
  - destruct (truthy_bool (loading m)); reflexivity.
Qed.

Lemma typing_indicator_tracks_placeholder_witness :
  botIsTyping (messages (sendMessage "a" opened_state)) = true /\
  botIsTyping (messages given_up_state) = false.
Proof.
  split.
  - rewrite (typing_indicator_tracks_placeholder None sample_parse
               (Some "s1") [] [EvOpen 0; EvSend "a"]
               (sendMessage "a" opened_state) eq_refl).
    reflexivity.
  - rewrite (typing_indicator_tracks_placeholder None sample_parse
               (Some "s1") [] (five_failed_reconnects ++ [EvClose 5])
               given_up_state eq_refl).
    reflexivity.
Defined.

(** ** Retrying *)

Section Retry.

Variable env : option string.
Variable JSON_parse : string -> option json.

Lemma step_counts_sockets (ev : event) (st st' : State) :
  match ev with EvOpen _ => False | _ => True end ->
  step env JSON_parse ev st = Some st' ->
  length (sockets st') + reconnectAttempts st
  = length (sockets st) + reconnectAttempts st'.
Proof.
  intros Hev Hstep. destruct ev as [i|i payload|i|i|i| |text0];
    simpl in Hstep; [contradiction|..].
  - destruct (sockets st !! i) as [[]|]; try discriminate.
    injection Hstep as <-.
    destruct (onmessage_frame env JSON_parse payload st)
      as (-> & _ & -> & _). reflexivity.
  - destruct (sockets st !! i) as [[]|]; try discriminate;
      injection Hstep as <-; simpl; by rewrite length_insert.
  - destruct (sockets st !! i) as [r|]; try discriminate.
    by injection Hstep as <-.
  - assert (Hc : st' = onclose (set_ready i CLOSED st))
      by (destruct (sockets st !! i) as [[]|]; try discriminate; congruence).
    subst st'. unfold onclose.
    destruct (reconnectAttempts _ <? maxReconnectAttempts)%nat; simpl;
      by rewrite length_insert.
  - destruct (timers st) as [|n]; try discriminate.
    injection Hstep as <-. simpl. rewrite length_app. simpl. lia.
  - injection Hstep as <-.
    destruct (sendMessage_frame text0 st) as (-> & _ & -> & _). reflexivity.
Qed.

Lemma run_counts_sockets (evs : list event) (st st' : State) :
  no_open evs -> run env JSON_parse evs st = Some st' ->
  length (sockets st') + reconnectAttempts st
  = length (sockets st) + reconnectAttempts st'.
Proof.
  intros Hno. revert st. induction Hno as [|ev evs Hev _ IH]; intros st Hrun;
    simpl in Hrun.
  - by injection Hrun as <-.
  - destruct (step env JSON_parse ev st) as [s|] eqn:E; [|discriminate].
    pose proof (step_counts_sockets ev st s Hev E).
    pose proof (IH s Hrun). lia.
Qed.

End Retry.

(** X9.  From any reachable state, as long as no socket opens, every socket
    constructed is counted by the reconnect counter, so at most
    `5 - reconnectAttempts` more sockets are ever constructed: the client
    never reconnects more than five times in a row without success. *)
Theorem reconnects_are_bounded (env : option string)
    (JSON_parse : string -> option json) (session : option string)
    (history : list (string * string)) (evs0 evs : list event)
    (st st' : State) :
  run env JSON_parse evs0 (init_state session history) = Some st ->
  no_open evs ->
  run env JSON_parse evs st = Some st' ->
  length (sockets st') + reconnectAttempts st
  = length (sockets st) + reconnectAttempts st' /\
  length (sockets st') <= length (sockets st) + (5 - reconnectAttempts st).
Proof.
  intros H0 Hno Hrun.
  pose proof (run_counts_sockets env JSON_parse evs st st' Hno Hrun) as Hc.
  split; [exact Hc|].
  assert (Hreach : run env JSON_parse (evs0 ++ evs)
                     (init_state session history) = Some st')
    by (rewrite run_app, H0; exact Hrun).
  destruct (reachable_invariants env JSON_parse _ _ _ _ Hreach)
    as [_ [Hle _]].
  unfold maxReconnectAttempts in Hle. lia.
Qed.

Lemma reconnects_are_bounded_witness :
  length (sockets exhausted_state) + 0 = 1 + reconnectAttempts exhausted_state
  /\ length (sockets exhausted_state) <= 1 + (5 - 0).
Proof.
  apply (reconnects_are_bounded None sample_parse (Some "s1") [] []
           five_failed_reconnects (init_state (Some "s1") [])
           exhausted_state).
  - reflexivity.
  - repeat constructor.
  - reflexivity.
Defined.

(** X10.  In a reachable state, when a socket that is not yet closed
    closes while the counter is below the ceiling, the close and the
    timeout it schedules can both run, and they leave: the counter one
    higher, exactly one more socket, connecting and current, no timeout
    pending, and the message sequence untouched. *)
Theorem close_then_timeout_reconnects (env : option string)
    (JSON_parse : string -> option json) (session : option string)
    (history : list (string * string)) (evs : list event) (st : State)
    (i : nat) (r : ReadyState) :
  run env JSON_parse evs (init_state session history) = Some st ->
  sockets st !! i = Some r -> is_live r = true ->
  reconnectAttempts st < maxReconnectAttempts ->
  exists st',
    run env JSON_parse [EvClose i; EvTimeout] st = Some st' /\
    reconnectAttempts st' = reconnectAttempts st + 1 /\
    length (sockets st') = S (length (sockets st)) /\
    readyState st' = Some CONNECTING /\
    timers st' = 0 /\
    messages st' = messages st.
Proof.
  intros Hrun Hi Hr Hlt.
  destruct (reachable_invariants env JSON_parse _ _ _ _ Hrun) as [Hone _].
  unfold single_connection in Hone.
  pose proof (live_count_pos _ _ _ Hi Hr) as Hpos.
  assert (Ht : timers st = 0) by lia.
  assert (Hclose : step env JSON_parse (EvClose i) st
                   = Some (onclose (set_ready i CLOSED st)))
    by (simpl; rewrite Hi; destruct r; try discriminate; reflexivity).
  assert (Hb : (reconnectAttempts st <? maxReconnectAttempts)%nat = true)
    by (by apply Nat.ltb_lt).
  eexists. split.
  - cbn [run]. rewrite Hclose. unfold onclose. cbn [set_ready reconnectAttempts].
    rewrite Hb. cbn [step timers]. reflexivity.
  - cbn. rewrite Ht. rewrite length_app, length_insert. cbn.
    repeat split; try lia; try reflexivity.
    unfold readyState. cbn.
    rewrite lookup_app_r by (rewrite length_insert; lia).
    rewrite length_insert. by rewrite Nat.sub_diag.
Qed.

Lemma close_then_timeout_reconnects_witness :
  exists st',
    run None sample_parse [EvClose 0; EvTimeout] (init_state (Some "s1") [])
    = Some st' /\
    reconnectAttempts st' = 1 /\ readyState st' = Some CONNECTING.
Proof.
  destruct (close_then_timeout_reconnects None sample_parse (Some "s1") []
              [] (init_state (Some "s1") []) 0 CONNECTING
              eq_refl eq_refl eq_refl)
    as (st' & Hrun & Ha & _ & Hr & _).
  - unfold maxReconnectAttempts. simpl. lia.
  - exists st'. split; [exact Hrun|]. split; [exact Ha | exact Hr].
Defined.

(** ** Audio references *)

Lemma prefix_append (p a b : string) :
  String.prefix p a = true -> String.prefix p (a ++ b)%string = true.
Proof.
  revert p. induction a as [|c' a IH]; intros p H.
  - destruct p as [|c p]; [|discriminate]. by destruct b.
  - destruct p as [|c p]; [reflexivity|]. simpl in *.
    destruct (ascii_dec c c'); [by apply IH | discriminate].
Qed.

(** X11.  When the configured base URL starts with `http` (the default
    does), every resolved audio reference is a non-empty string that starts
    with `http`, and resolving is idempotent: an envelope carrying an
    already resolved reference resolves to that same reference, so a
    reference is never prefixed twice. *)
Theorem audioUrl_idempotent (env : option string) (data : ws_data)
    (u : string) :
  String.prefix "http" (API_BASE env) = true ->
  audioUrl env data = Some u ->
  u <> EmptyString /\ String.prefix "http" u = true /\
  audioUrl env (audio_ready_event (Some u)) = Some u.
Proof.
  intros Hbase Hu.
  assert (Hp : String.prefix "http" u = true).
  { unfold audioUrl in Hu. destruct (d_audio_url data) as [v|]; [|discriminate].
    destruct (String.prefix "http" v) eqn:E.
    - by injection Hu as <-.
    - destruct (truthy_str (Some v)); [|discriminate].
      injection Hu as <-. by apply prefix_append. }
  split; [intros ->; discriminate|]. split; [exact Hp|].
  unfold audioUrl. simpl. by rewrite Hp.
Qed.

Lemma audioUrl_idempotent_witness :
  audioUrl None
    (audio_ready_event (Some "http://127.0.0.1:8000/audio/a.mp3"))
  = Some "http://127.0.0.1:8000/audio/a.mp3".
Proof.
  apply (audioUrl_idempotent None (audio_ready_event (Some "/audio/a.mp3"))
           "http://127.0.0.1:8000/audio/a.mp3" eq_refl eq_refl).
Defined.

(** X12.  An absent or empty `audio_url` resolves to no reference at all,
    and `audio_ready` then writes `undefined` into the most recent
    finalized socket-origin Bot message: a reference that message already
    had is cleared. *)
Theorem audio_ready_without_url_clears (env : option string)
    (data : ws_data) (pre post : list Message) (m : Message) :
  is_event "audio_ready" data = true ->
  truthy_str (d_audio_url data) = false ->
  finalized_bot m = true ->
  Forall (fun x => finalized_bot x = false) post ->
  audioUrl env data = None /\
  handle_data env data (pre ++ m :: post)
  = pre ++ with_audio m None :: post.
Proof.
  intros Hev Hurl Hm Hpost.
  assert (Hnone : audioUrl env data = None).
  { unfold audioUrl. destruct (d_audio_url data) as [[|a r]|];
      try discriminate; reflexivity. }
  split; [exact Hnone|].
  rewrite handle_data_audio_ready by assumption.
  unfold audio_ready_update. rewrite Hnone. by apply audio_scan_split.
Qed.

Lemma audio_ready_without_url_clears_witness :
  handle_data None (audio_ready_event None)
    ([user_message "Hello"]
     ++ with_audio answered (Some "http://cdn/a.mp3") :: [])
  = [user_message "Hello"] ++ with_audio answered None :: [].
Proof.
  apply (audio_ready_without_url_clears None (audio_ready_event None)
           [user_message "Hello"] []
           (with_audio answered (Some "http://cdn/a.mp3"))).
  - reflexivity.
  - reflexivity.
  - reflexivity.
  - constructor.
Defined.

(** ** Seeding from the history *)

(** X13.  Whatever the history, the seeded messages all have a non-empty
    text, none is loading, none has an audio reference, each is a `You`
    message of user origin or a `Bot` message of socket origin, and there
    are at most two per history entry: empty questions and empty answers
    are skipped. *)
Theorem seed_history_shape (history : list (string * string)) :
  Forall (fun m =>
            text m <> EmptyString /\ loading m = None /\ audio m = None /\
            ((sender m = "You" /\ source m = Some user)
             \/ (sender m = "Bot" /\ source m = Some websocket)))
    (seed_history history)
  /\ length (seed_history history) <= 2 * length history
  /\ last_is_loading_websocket (seed_history history) = false.
Proof.
  assert (H : Forall (fun m =>
            text m <> EmptyString /\ loading m = None /\ audio m = None /\
            ((sender m = "You" /\ source m = Some user)
             \/ (sender m = "Bot" /\ source m = Some websocket)))
    (seed_history history)
  /\ length (seed_history history) <= 2 * length history).
  { unfold seed_history. induction history as [|[q a] history [IH1 IH2]];
      simpl; [split; [constructor | lia]|].
    split.
    - apply Forall_app. split; [|exact IH1]. unfold seed_entry. simpl.
      destruct q as [|c q]; destruct a as [|c' a]; simpl;
        repeat first [apply Forall_nil_2 | apply Forall_cons_2];
        (repeat split; try discriminate; auto).
    - rewrite length_app.
      assert (length (seed_entry (q, a)) <= 2)
        by (unfold seed_entry; simpl;
            destruct q as [|c q]; destruct a as [|c' a]; simpl; lia).
      lia. }
  destruct H as [H1 H2]. split; [exact H1|]. split; [exact H2|].
  unfold last_is_loading_websocket.
  destruct (lastMessage (seed_history history)) as [m|] eqn:E; [|reflexivity].
  apply lastMessage_inv in E as [pre E]. rewrite E in H1.
  apply Forall_app in H1 as [_ H1]. apply Forall_cons in H1 as [(_ & Hl & _) _].
  by rewrite Hl.
Qed.

(** ** Session bootstrap *)


(** X14.  When the session is known (a non-empty stored one, or the reply
    of `/start-session`) and the history request answers, `initSession`
    leaves exactly the state the runs above start from: the session stored
    in the cell, the history seeded, one socket connecting; and the
    loading flag is down. *)
Theorem initSession_completes (env : option string)
    (storage : option string) (start_reply : option session_value)
    (history_reply : option (option (list (string * string)))) :
  truthy_str storage = true \/ start_reply <> None ->
  history_reply <> None ->
  exists session history,
    history_reply = Some history /\
    (truthy_str storage = true -> session = storage) /\
    (truthy_str storage = false ->
     exists v, start_reply = Some v /\ session = session_cell v) /\
    home (initSession env start_reply history_reply (mount storage))
    = init_state session (default [] history) /\
    loadingSession (initSession env start_reply history_reply (mount storage))
    = false.
Proof.
  intros Hs Hh.
  destruct history_reply as [history|]; [|congruence].
  destruct storage as [[|a r]|]; simpl in *.
  1,3: destruct start_reply as [v|]; [|destruct Hs; [discriminate|congruence]];
    exists (session_cell v), history; split; [reflexivity|];
    split; [discriminate|]; split; [eauto|];
    unfold initSession; simpl; destruct history as [h|]; by destruct v.
  exists (Some (String a r)), history. split; [reflexivity|].
  split; [reflexivity|]. split; [discriminate|].
  unfold initSession; simpl. by destruct history as [h|].
Qed.

Lemma initSession_completes_witness :
  exists session history,
    Some (Some [("Hello", "Hi there")]) = Some history /\
    home (initSession None (Some (SessionString "s1"))
            (Some (Some [("Hello", "Hi there")])) (mount None))
    = init_state session (default [] history).
Proof.
  destruct (initSession_completes None None (Some (SessionString "s1"))
              (Some (Some [("Hello", "Hi there")])))
    as (session & history & H1 & _ & _ & H2 & _).
  - right. discriminate.
  - discriminate.
  - exists session, history. split; [exact H1 | exact H2].
Defined.

(** X15.  A session identifier obtained on a first load survives the
    reload: the first `initSession` persists it even if its history
    request then fails, and a later `initSession` on that storage takes it
    from there, whatever `/start-session` would answer, requests only the
    history of that session and leaves the storage as it was. *)
Theorem session_survives_reload (env : option string) (a : ascii)
    (r : string)
    (history_reply history_reply' : option (option (list (string * string))))
    (start_reply' : option session_value) :
  let first :=
    initSession env (Some (SessionString (String a r))) history_reply
      (mount None) in
  let second :=
    initSession env start_reply' history_reply' (mount (chat_session first)) in
  chat_session first = Some (String a r) /\
  sessionId (home second) = Some (String a r) /\
  chat_session second = Some (String a r) /\
  fetched second = [(API_BASE env ++ "/history/" ++ String a r)%string].
Proof.
  cbv zeta.
  assert (H1 : chat_session
            (initSession env (Some (SessionString (String a r)))
               history_reply (mount None)) = Some (String a r))
    by (unfold initSession; simpl; by destruct history_reply as [[h|]|]).
  rewrite H1. split; [reflexivity|].
  unfold initSession; simpl. by destruct history_reply' as [[h|]|].
Qed.



(** X17.  When the reply of `/start-session` has no `session_id`, the test
    `session !== null` lets `undefined` through: the text `undefined` is
    persisted as the session and the history of `undefined` is requested,
    while the session cell stays unset; the next load then adopts the text
    `undefined` as its session identifier, whatever the server answers. *)
Theorem missing_session_id_is_persisted (env : option string)
    (history_reply history_reply' : option (option (list (string * string))))
    (start_reply' : option session_value) :
  let pg := initSession env (Some SessionUndefined) history_reply
              (mount None) in
  let reloaded :=
    initSession env start_reply' history_reply' (mount (chat_session pg)) in
  chat_session pg = Some "undefined" /\
  fetched pg = [(API_BASE env ++ "/start-session")%string;
                (API_BASE env ++ "/history/undefined")%string] /\
  sessionId (home pg) = None /\
  sessionId (home reloaded) = Some "undefined".
Proof.
  cbv zeta.
  assert (H1 : chat_session
            (initSession env (Some SessionUndefined) history_reply
               (mount None)) = Some "undefined")
    by (unfold initSession; simpl; by destruct history_reply as [[h|]|]).
  rewrite H1. split; [reflexivity|].
  unfold initSession. simpl.
  destruct history_reply as [[h|]|]; destruct history_reply' as [[h'|]|];
    simpl; auto.
Qed.

(** * Properties of the conversation view *)

(** ** The audio player *)

Lemma pause_lookup (l : list AudioElement) (a j : nat) (e : AudioElement) :
  pause a l !! j = Some e ->
  (j = a /\ playing e = false) \/ (j <> a /\ l !! j = Some e).
Proof.
  unfold pause. rewrite list_lookup_alter.
  destruct (decide (a = j)) as [->|Hne].
  - destruct (l !! j) as [x|]; [|discriminate]. simpl.
    intros [= <-]. by left.
  - intros H. right. split; [congruence | assumption].
Qed.

Lemma pause_silences (l : list AudioElement) (a : nat) :
  (forall j e, l !! j = Some e -> playing e = true -> j = a) ->
  Forall (fun e => playing e = false) (pause a l).
Proof.
  intros H. apply Forall_lookup. intros j e He.
  apply pause_lookup in He as [[_ He]|[Hne He]]; [assumption|].
  destruct (playing e) eqn:E; [|reflexivity].
  exfalso. apply Hne. by apply (H j e).
Qed.

Lemma one_playing_current (cb : ChatBox) (a : nat) :
  one_playing cb -> currentAudio cb = Some a ->
  Forall (fun e => playing e = false) (pause a (audios cb)).
Proof.
  intros H Ha. apply pause_silences. intros j e He Hp.
  destruct (H j e He Hp) as [Hc _]. congruence.
Qed.

Lemma one_playing_idle (cb : ChatBox) :
  one_playing cb -> currentAudio cb = None -> silent cb.
Proof.
  intros H Hc. apply Forall_lookup. intros j e He.
  destruct (playing e) eqn:E; [|reflexivity].
  destruct (H j e He E) as [Hj _]. congruence.
Qed.

Lemma silent_one_playing (cb : ChatBox) : silent cb -> one_playing cb.
Proof.
  intros H a e He Hp. unfold silent in H. rewrite Forall_lookup in H.
  rewrite (H a e He) in Hp. discriminate.
Qed.

Lemma start_audio_one_playing (url : string) (play_ok : bool) (cb : ChatBox) :
  silent cb -> one_playing (start_audio url play_ok cb).
Proof.
  intros H a e He Hp. unfold start_audio in *. simpl in *.
  apply lookup_snoc_Some in He as [[_ He]|[-> <-]].
  - unfold silent in H. rewrite Forall_lookup in H.
    rewrite (H a e He) in Hp. discriminate.
  - auto.
Qed.

Lemma toggleAudio_one_playing (url : string) (play_ok : bool) (cb : ChatBox) :
  one_playing cb -> one_playing (toggleAudio url play_ok cb).
Proof.
  intros H. unfold toggleAudio.
  destruct (currentAudio cb) as [a|] eqn:Ea.
  - pose proof (one_playing_current cb a H Ea) as Hs.
    destruct (is_playing_url cb url).
    + by apply silent_one_playing.
    + by apply start_audio_one_playing.
  - apply start_audio_one_playing. by apply one_playing_idle.
Qed.

Lemma toggleAudio_frame (url : string) (play_ok : bool) (cb : ChatBox) :
  let cb' := toggleAudio url play_ok cb in
  voiceMode cb' = voiceMode cb /\ livekitToken cb' = livekitToken cb /\
  lastPlayedAudioRef cb' = lastPlayedAudioRef cb /\ input cb' = input cb.
Proof.
  unfold toggleAudio. cbv zeta.
  destruct (currentAudio cb); [destruct (is_playing_url cb url)|]; simpl; auto.
Qed.

Lemma view_step_one_playing (ev : view_event) (cb cb' : ChatBox) :
  one_playing cb -> view_step ev cb = Some cb' -> one_playing cb'.
Proof.
  intros H Hstep. destruct ev as [url ok|a|reply|msgs ok]; simpl in Hstep.
  - injection Hstep as <-. by apply toggleAudio_one_playing.
  - destruct (audios cb !! a) as [e|] eqn:Ee; [|discriminate].
    destruct (playing e) eqn:Ep; [|discriminate]. injection Hstep as <-.
    destruct (H a e Ee Ep) as [Hc _].
    apply silent_one_playing. exact (one_playing_current cb a H Hc).
  - injection Hstep as <-. unfold toggleVoiceMode.
    destruct (voiceMode cb).
    + destruct (currentAudio cb) as [a|] eqn:Ea.
      * apply silent_one_playing. exact (one_playing_current cb a H Ea).
      * intros a e He Hp. simpl in *. destruct (H a e He Hp). congruence.
    + unfold fetchLivekitToken.
      destruct reply as [msg|status errorText|[[|c r]|]]; exact H.
  - injection Hstep as <-. unfold autoplay_effect.
    destruct (voiceMode cb); [assumption|].
    destruct (lastMessage msgs) as [m|]; [|assumption].
    destruct (audio m) as [[|c r]|]; try assumption.
    match goal with |- context [if ?b then _ else _] => destruct b end;
      [|assumption].
    apply toggleAudio_one_playing. exact H.
Qed.

Lemma view_run_one_playing (evs : list view_event) (cb cb' : ChatBox) :
  one_playing cb -> view_run evs cb = Some cb' -> one_playing cb'.
Proof.
  revert cb. induction evs as [|ev evs IH]; intros cb H Hrun; simpl in Hrun.
  - by injection Hrun as <-.
  - destruct (view_step ev cb) as [c|] eqn:E; [|discriminate].
    eapply IH; [|exact Hrun]. by eapply view_step_one_playing.
Qed.

(** X18.  Whatever the user, the browser and the effects do to the view,
    at most one `Audio` element plays at a time, and when one plays it is
    the one `currentAudio` refers to and `isPlaying` holds its URL. *)
Theorem at_most_one_audio_plays (evs : list view_event) (cb : ChatBox)
    (a b : nat) (ea eb : AudioElement) :
  view_run evs fresh_chatbox = Some cb ->
  audios cb !! a = Some ea -> playing ea = true ->
  audios cb !! b = Some eb -> playing eb = true ->
  a = b /\ currentAudio cb = Some a /\ isPlaying cb = Some (src ea).
Proof.
  intros Hrun Ha Hpa Hb Hpb.
  assert (H : one_playing cb).
  { apply (view_run_one_playing evs fresh_chatbox cb); [|exact Hrun].
    intros x e He. discriminate. }
  destruct (H a ea Ha Hpa) as [H1 H2]. destruct (H b eb Hb Hpb) as [H3 _].
  split; [congruence|]. split; assumption.
Qed.

Lemma at_most_one_audio_plays_witness :
  currentAudio
    (toggleAudio "http://cdn/b.mp3" true
       (toggleAudio "http://cdn/a.mp3" true fresh_chatbox)) = Some 1
  /\ isPlaying
       (toggleAudio "http://cdn/b.mp3" true
          (toggleAudio "http://cdn/a.mp3" true fresh_chatbox))
     = Some "http://cdn/b.mp3".
Proof.
  apply (at_most_one_audio_plays
           [VToggleAudio "http://cdn/a.mp3" true;
            VToggleAudio "http://cdn/b.mp3" true]
           (toggleAudio "http://cdn/b.mp3" true
              (toggleAudio "http://cdn/a.mp3" true fresh_chatbox))
           1 1 {| src := "http://cdn/b.mp3"; playing := true |}
           {| src := "http://cdn/b.mp3"; playing := true |}
           eq_refl eq_refl eq_refl eq_refl eq_refl).
Defined.

Lemma streq_refl (s : string) : streq s s = true.
Proof. apply String.eqb_refl. Qed.

Lemma pause_snoc_silent (l : list AudioElement) (e : AudioElement) :
  Forall (fun x => playing x = false) l ->
  Forall (fun x => playing x = false) (pause (length l) (l ++ [e])).
Proof.
  intros H. apply pause_silences. intros j x Hx Hp.
  apply lookup_snoc_Some in Hx as [[_ Hx]|[-> _]]; [|reflexivity].
  rewrite Forall_lookup in H. rewrite (H j x Hx) in Hp. discriminate.
Qed.

(** X19.  Pressing play twice on the same URL is a toggle: unless that URL
    was already the one playing, the first call starts it and the second
    stops it, leaving no element playing and the player idle, whether or
    not the browser allowed playback. *)
Theorem toggle_twice_stops (url : string) (ok ok' : bool) (cb : ChatBox) :
  one_playing cb ->
  currentAudio cb = None \/ is_playing_url cb url = false ->
  let cb2 := toggleAudio url ok' (toggleAudio url ok cb) in
  silent cb2 /\ currentAudio cb2 = None /\ isPlaying cb2 = None /\
  length (audios cb2) = S (length (audios cb)).
Proof.
  intros H Hnot. cbv zeta.
  assert (Hfirst : exists l,
            Forall (fun x => playing x = false) l /\
            length l = length (audios cb) /\
            audios (toggleAudio url ok cb)
            = l ++ [ {| src := url; playing := ok |} ] /\
            currentAudio (toggleAudio url ok cb) = Some (length l) /\
            isPlaying (toggleAudio url ok cb) = Some url).
  { unfold toggleAudio. destruct (currentAudio cb) as [a|] eqn:Ea.
    - destruct Hnot as [Hnot|Hnot]; [discriminate|]. rewrite Hnot.
      exists (pause a (audios cb)).
      split; [by apply one_playing_current|].
      split; [apply length_alter|]. simpl. auto.
    - exists (audios cb). split; [by apply one_playing_idle|]. simpl. auto. }
  destruct Hfirst as (l & Hl & Hlen & Haud & Hcur & Hnow).
  remember (toggleAudio url ok cb) as c1 eqn:Ec1. clear Ec1.
  assert (E2 : toggleAudio url ok' c1
               = set_player
                   (pause (length l) (l ++ [ {| src := url; playing := ok |} ]))
                   None None c1).
  { unfold toggleAudio. rewrite Hcur. unfold is_playing_url.
    by rewrite Hnow, streq_refl, Haud. }
  rewrite E2. unfold silent. simpl.
  split; [by apply pause_snoc_silent|].
  split; [reflexivity|]. split; [reflexivity|].
  unfold pause. rewrite length_alter, length_app. simpl. lia.
Qed.

Lemma toggle_twice_stops_witness :
  silent (toggleAudio "http://cdn/a.mp3" true
            (toggleAudio "http://cdn/a.mp3" true fresh_chatbox)).
Proof.
  apply (toggle_twice_stops "http://cdn/a.mp3" true true fresh_chatbox).
  - intros a e He. discriminate.
  - by left.
Defined.

Lemma autoplay_effect_skips (msgs : list Message) (ok : bool) (cb : ChatBox)
    (m : Message) (url : string) :
  lastMessage msgs = Some m -> audio m = Some url ->
  lastPlayedAudioRef cb = Some url ->
  autoplay_effect msgs ok cb = cb.
Proof.
  intros Hm Ha Hp. unfold autoplay_effect.
  destruct (voiceMode cb); [reflexivity|]. rewrite Hm, Ha, Hp.
  destruct url as [|c r]; [reflexivity|].
  rewrite streq_refl. cbn [negb]. by rewrite andb_false_r.
Qed.

(** X20.  Running the audio effect again on the same message sequence
    changes nothing: the reference it has just played is remembered in
    `lastPlayedAudioRef`, so a re-run of the effect (which every change of
    the player triggers) neither restarts nor stops the audio. *)
Theorem autoplay_effect_idempotent (msgs : list Message) (ok ok' : bool)
    (cb : ChatBox) :
  autoplay_effect msgs ok' (autoplay_effect msgs ok cb)
  = autoplay_effect msgs ok cb.
Proof.
  unfold autoplay_effect at 2 3.
  destruct (voiceMode cb) eqn:Ev.
  { unfold autoplay_effect. by rewrite Ev. }
  destruct (lastMessage msgs) as [m|] eqn:Em.
  2: { unfold autoplay_effect. by rewrite Ev, Em. }
  destruct (audio m) as [[|c r]|] eqn:Ea.
  1,3: unfold autoplay_effect; by rewrite Ev, Em, Ea.
  match goal with
  | |- context [if ?b then toggleAudio _ _ _ else _] => destruct b eqn:Eb
  end.
  2: { unfold autoplay_effect. by rewrite Ev, Em, Ea, Eb. }
  apply (autoplay_effect_skips msgs ok' _ m (String c r) Em Ea).
  match goal with
  | |- lastPlayedAudioRef (toggleAudio ?u ?o ?c) = _ =>
      destruct (toggleAudio_frame u o c) as (_ & _ & -> & _)
  end.
  reflexivity.
Qed.

(** X21.  Along every run of the view, voice mode is on exactly when a
    call token is held: it is entered only with a non-empty token from the
    token request, and leaving it drops the token. *)
Theorem voice_mode_iff_token (evs : list view_event) (cb : ChatBox) :
  view_run evs fresh_chatbox = Some cb ->
  voiceMode cb = truthy_str (Some (livekitToken cb)).
Proof.
  assert (G : forall evs c0 c1,
            voiceMode c0 = truthy_str (Some (livekitToken c0)) ->
            view_run evs c0 = Some c1 ->
            voiceMode c1 = truthy_str (Some (livekitToken c1))).
  { clear. intros evs. induction evs as [|ev evs IH]; intros c0 c1 H Hrun;
      simpl in Hrun.
    - by injection Hrun as <-.
    - destruct (view_step ev c0) as [c|] eqn:E; [|discriminate].
      apply (IH c c1); [|exact Hrun]. clear IH Hrun.
      destruct ev as [url ok|a|reply|msgs ok]; simpl in E.
      + injection E as <-.
        destruct (toggleAudio_frame url ok c0) as (-> & -> & _). exact H.
      + destruct (audios c0 !! a) as [e|]; [|discriminate].
        destruct (playing e); [|discriminate]. by injection E as <-.
      + injection E as <-. unfold toggleVoiceMode.
        destruct (voiceMode c0) eqn:Ev; [reflexivity|].
        rewrite <- Ev in H.
        unfold fetchLivekitToken.
        destruct reply as [msg|status errorText|[[|x r]|]]; simpl;
          first [reflexivity | exact H].
      + injection E as <-. unfold autoplay_effect.
        destruct (voiceMode c0) eqn:Ev; [rewrite Ev; exact H|].
        destruct (lastMessage msgs) as [m|]; [|rewrite Ev; exact H].
        destruct (audio m) as [[|x r]|]; try (rewrite Ev; exact H).
        match goal with |- context [if ?b then _ else _] => destruct b end;
          [|rewrite Ev; exact H].
        match goal with
        | |- context [toggleAudio ?u ?o ?c] =>
            destruct (toggleAudio_frame u o c) as (-> & -> & _)
        end.
        simpl. exact H. }
  intros Hrun. by apply (G evs fresh_chatbox cb).
Qed.

Lemma voice_mode_iff_token_witness :
  voiceMode (toggleVoiceMode (TokenBody (Some "tok")) fresh_chatbox) = true
  /\ voiceMode
       (toggleVoiceMode (TokenBody None)
          (toggleVoiceMode (TokenBody (Some "tok")) fresh_chatbox)) = false.
Proof.
  split.
  - rewrite (voice_mode_iff_token [VToggleVoice (TokenBody (Some "tok"))]
               (toggleVoiceMode (TokenBody (Some "tok")) fresh_chatbox)
               eq_refl).
    reflexivity.
  - rewrite (voice_mode_iff_token
               [VToggleVoice (TokenBody (Some "tok"));
                VToggleVoice (TokenBody None)]
               (toggleVoiceMode (TokenBody None)
                  (toggleVoiceMode (TokenBody (Some "tok")) fresh_chatbox))
               eq_refl).
    reflexivity.
Defined.

(** ** Sending from the input box *)

(** X22.  When the user sends a non-blank text while the socket is not
    open, the text is lost: `handleSend` empties the input box, yet the
    controller shows only the connection-lost message; the question is
    neither displayed nor sent. *)
Theorem handleSend_on_closed_socket (blank : string -> bool)
    (listening : bool) (cb : ChatBox) (st : State) :
  blank (input cb) = false -> voiceMode cb = false ->
  socket_open st = false ->
  let view := handleSend blank false listening (cb, st) in
  input view.1 = EmptyString /\
  messages view.2 = messages st ++ [connection_lost_message] /\
  user_messages (messages view.2) = user_messages (messages st) /\
  sent view.2 = sent st.
Proof.
  intros Hb Hv Ho. cbv zeta. unfold handleSend. rewrite Hb, Hv. simpl.
  rewrite sendMessage_not_open by assumption. simpl.
  split; [reflexivity|]. split; [reflexivity|]. split; [|reflexivity].
  rewrite user_messages_app.
  rewrite (user_messages_cons_websocket connection_lost_message)
    by reflexivity.
  simpl. by rewrite app_nil_r.
Qed.

Lemma handleSend_on_closed_socket_witness :
  let cb := {| livekitToken := EmptyString; voiceMode := false;
               connectionError := None; input := "Hello"; audios := [];
               currentAudio := None; isPlaying := None;
               lastPlayedAudioRef := None; speech := [] |} in
  let view :=
    handleSend (fun s => streq s EmptyString) false false
      (cb, init_state (Some "s1") []) in
  input view.1 = EmptyString /\
  messages view.2 = [connection_lost_message].
Proof.
  cbv zeta.
  destruct (handleSend_on_closed_socket (fun s => streq s EmptyString) false
              {| livekitToken := EmptyString; voiceMode := false;
                 connectionError := None; input := "Hello"; audios := [];
                 currentAudio := None; isPlaying := None;
                 lastPlayedAudioRef := None; speech := [] |}
              (init_state (Some "s1") []) eq_refl eq_refl eq_refl)
    as (H1 & H2 & _).
  split; [exact H1 | exact H2].
Defined.

(** X23.  With a session and an open socket, a non-blank input sent from
    the box outside voice mode reaches the wire as typed: the blank test
    only gates the send, the question shown and sent is the input itself,
    untrimmed, and the box is emptied. *)
Theorem handleSend_sends_raw_input (blank : string -> bool)
    (listening : bool) (cb : ChatBox) (st : State) :
  blank (input cb) = false -> voiceMode cb = false ->
  truthy_str (sessionId st) = true -> socket_open st = true ->
  let view := handleSend blank false listening (cb, st) in
  input view.1 = EmptyString /\
  messages view.2 = messages st ++ [user_message (input cb); placeholder] /\
  exists sid i,
    sessionId st = Some sid /\
    sent view.2
    = sent st ++ [(i, {| session_id := sid; question := input cb |})].
Proof.
  intros Hb Hv Hs Ho. cbv zeta. unfold handleSend. rewrite Hb, Hv. simpl.
  split; [reflexivity|]. unfold sendMessage.
  destruct (sessionId st) as [[|a r]|] eqn:Es; try discriminate.
  destruct (wsRef st) as [i|] eqn:Ew.
  - rewrite Ho. simpl. rewrite <- app_assoc.
    split; [reflexivity|]. exists (String a r), i. auto.
  - unfold socket_open, readyState in Ho. rewrite Ew in Ho. discriminate.
Qed.

Lemma handleSend_sends_raw_input_witness :
  let cb := {| livekitToken := EmptyString; voiceMode := false;
               connectionError := None; input := " Hello "; audios := [];
               currentAudio := None; isPlaying := None;
               lastPlayedAudioRef := None; speech := [] |} in
  let view :=
    handleSend (fun s => streq s EmptyString) false false (cb, opened_state) in
  input view.1 = EmptyString /\
  messages view.2 = [user_message " Hello "; placeholder].
Proof.
  cbv zeta.
  destruct (handleSend_sends_raw_input (fun s => streq s EmptyString) false
              {| livekitToken := EmptyString; voiceMode := false;
                 connectionError := None; input := " Hello "; audios := [];
                 currentAudio := None; isPlaying := None;
                 lastPlayedAudioRef := None; speech := [] |}
              opened_state eq_refl eq_refl eq_refl eq_refl)
    as (H1 & H2 & _).
  split; [exact H1 | exact H2].
Defined.

(** ** The controller and the player together *)

Lemma audioUrl_nonempty (env : option string) (data : ws_data) (u : string) :
  audioUrl env data = Some u -> exists c r, u = String c r.
Proof.
  unfold audioUrl. destruct (d_audio_url data) as [v|]; [|discriminate].
  destruct (String.prefix "http" v) eqn:E.
  - intros [= <-]. destruct v as [|c r]; [discriminate | eauto].
  - destruct v as [|c r]; [discriminate|]. simpl. intros [= <-].
    destruct (API_BASE env) as [|c' r']; simpl; eauto.
Qed.

(** X24.  While an answer streams, nothing is played: after any
    `partial_text` envelope the sequence ends in a loading message, and the
    audio effect leaves the view exactly as it is, even if that trailing
    message carries an audio reference. *)
Theorem streaming_never_autoplays (env : option string) (data : ws_data)
    (msgs : list Message) (ok : bool) (cb : ChatBox) :
  is_event "partial_text" data = true ->
  autoplay_effect (handle_data env data msgs) ok cb = cb.
Proof.
  intros Hev. rewrite handle_data_partial_text by assumption.
  assert (Hlast : exists pre m, partial_text_update (d_text data) msgs
                                = pre ++ [m] /\ loading m = Some true).
  { destruct (last_is_loading_websocket msgs) eqn:E.
    - destruct (trailing_loading_inv msgs E) as (pre & m & -> & Hm).
      rewrite partial_text_update_pending by assumption.
      exists pre, (extended m (d_text data)). auto.
    - rewrite partial_text_update_fresh by assumption. eauto. }
  destruct Hlast as (pre & m & -> & Hl).
  unfold autoplay_effect. destruct (voiceMode cb); [reflexivity|].
  rewrite lastMessage_snoc, Hl.
  destruct (audio m) as [[|c r]|]; reflexivity.
Qed.

Lemma streaming_never_autoplays_witness :
  autoplay_effect
    (handle_data None (partial_text_event "Hi")
       [user_message "Hello"; placeholder]) true fresh_chatbox
  = fresh_chatbox.
Proof.
  apply (streaming_never_autoplays None (partial_text_event "Hi")).
  reflexivity.
Defined.

Lemma toggleAudio_starts (url : string) (ok : bool) (cb : ChatBox) :
  currentAudio cb = None \/ is_playing_url cb url = false ->
  isPlaying (toggleAudio url ok cb) = Some url /\
  currentAudio (toggleAudio url ok cb) = Some (length (audios cb)) /\
  audios (toggleAudio url ok cb) !! length (audios cb)
  = Some {| src := url; playing := ok |}.
Proof.
  intros H. unfold toggleAudio.
  destruct (currentAudio cb) as [a|] eqn:Ea.
  - destruct H as [H|H]; [discriminate|]. rewrite H. simpl.
    unfold pause. rewrite length_alter.
    split; [reflexivity|]. split; [reflexivity|].
    rewrite lookup_app_r by (rewrite length_alter; lia).
    rewrite length_alter. by rewrite Nat.sub_diag.
  - simpl. split; [reflexivity|]. split; [reflexivity|].
    rewrite lookup_app_r by lia. by rewrite Nat.sub_diag.
Qed.

(** X25.  When a `done` envelope brings an audio reference that is not the
    one played last, the audio effect, outside voice mode and on a player
    that is idle or playing something else, starts exactly the resolved
    reference: a new element with that source becomes current, the
    reference is recorded as last played, and still at most one element
    plays. *)
Theorem answer_audio_autoplays (env : option string) (data : ws_data)
    (msgs : list Message) (u : string) (ok : bool) (cb : ChatBox) :
  is_event "done" data = true ->
  audioUrl env data = Some u ->
  voiceMode cb = false ->
  lastPlayedAudioRef cb <> Some u ->
  one_playing cb ->
  currentAudio cb = None \/ is_playing_url cb u = false ->
  let cb' := autoplay_effect (handle_data env data msgs) ok cb in
  isPlaying cb' = Some u /\ lastPlayedAudioRef cb' = Some u /\
  currentAudio cb' = Some (length (audios cb)) /\
  audios cb' !! length (audios cb) = Some {| src := u; playing := ok |} /\
  one_playing cb'.
Proof.
  intros Hev Hu Hv Hlp Hone Hidle. cbv zeta.
  destruct (audioUrl_nonempty env data u Hu) as (c & r & ->).
  rewrite handle_data_done by assumption.
  unfold autoplay_effect. rewrite Hv, done_update_last.
  cbn [audio loading done_message truthy_bool negb].
  rewrite Hu.
  replace (source_is_websocket (done_message env data)) with true
    by reflexivity.
  assert (Hneq : match lastPlayedAudioRef cb with
                 | Some p => streq p (String c r)
                 | None => false
                 end = false).
  { destruct (lastPlayedAudioRef cb) as [p|]; [|reflexivity].
    apply String.eqb_neq. congruence. }
  rewrite Hneq. cbn [andb negb].
  set (cb0 := {| livekitToken := livekitToken cb; voiceMode := false;
                 connectionError := connectionError cb; input := input cb;
                 audios := audios cb; currentAudio := currentAudio cb;
                 isPlaying := isPlaying cb;
                 lastPlayedAudioRef := Some (String c r);
                 speech := speech cb |}).
  assert (Hone0 : one_playing cb0) by exact Hone.
  assert (Hidle0 : currentAudio cb0 = None
                   \/ is_playing_url cb0 (String c r) = false) by exact Hidle.
  destruct (toggleAudio_starts (String c r) ok cb0 Hidle0) as (H1 & H2 & H3).
  destruct (toggleAudio_frame (String c r) ok cb0) as (_ & _ & H4 & _).
  split; [exact H1|]. split; [exact H4|]. split; [exact H2|].
  split; [exact H3|]. by apply toggleAudio_one_playing.
Qed.

Lemma answer_audio_autoplays_witness :
  isPlaying
    (autoplay_effect
       (handle_data None (done_event (Some "Hi there") (Some "/audio/a.mp3"))
          [user_message "Hello"; placeholder]) true fresh_chatbox)
  = Some "http://127.0.0.1:8000/audio/a.mp3".
Proof.
  apply (answer_audio_autoplays None
           (done_event (Some "Hi there") (Some "/audio/a.mp3"))
           [user_message "Hello"; placeholder]
           "http://127.0.0.1:8000/audio/a.mp3" true fresh_chatbox).
  - reflexivity.
  - reflexivity.
  - reflexivity.
  - discriminate.
  - intros a e He. discriminate.
  - by left.
Defined.

